(** * gijiroku-maker: the real-time transcription session, verified

    A shallow embedding of the two [TranscriptionApp] components of the
    front end (the AudioWorklet based one and the older ScriptProcessor
    based one): the sample encoder [convertFloat32ToInt16], the WebSocket
    session handlers installed by [connectWebSocket], the capture start
    gate [startRecording], the per-chunk callbacks and [generateMinutes].

    Layout: JavaScript numbers and typed-array stores, the two encoders,
    the application state and its handlers, the event loop; then the rest
    of the front end that the session leans on: the worklet's
    [RecorderProcessor], the balance display [formatSeconds] with the
    division of doubles it computes, [logout] of
    the authentication context, and the registration form with its regular
    expressions; and then the theorems. *)

From Stdlib Require Import ZArith QArith Qminmax Lia.
From stdpp Require Import base list strings pretty gmap.

Open Scope Z_scope.

(** ** JavaScript numbers, as far as the encoder needs them *)

Module JS.

(** An element of a [Float32Array] read as a JavaScript number: a
    not-a-number, an infinity, or a finite value.  Finite values are kept
    as exact rationals.  A float32 has a 24 bit significand and [0x7fff]
    has 15 bits, so the double product [x * 0x7fff] computed by the encoder
    has at most 39 significant bits and is exact: the rational product is
    the value JavaScript computes. *)
Inductive number : Type :=
  | NaN
  | PosInf
  | NegInf
  | Num (q : Q).

(** [Math.min(a, b)]: a NaN argument gives NaN. *)
Definition Math_min (a b : number) : number :=
  match a, b with
  | NaN, _ | _, NaN => NaN
  | NegInf, _ | _, NegInf => NegInf
  | PosInf, y => y
  | x, PosInf => x
  | Num p, Num q => if Qle_bool p q then Num p else Num q
  end.

(** The sign of a rational as a comparison with zero. *)
Definition Qsign (q : Q) : comparison := (Qnum q ?= 0)%Z.

(** [a * b] on numbers: an infinity times zero is NaN. *)
Definition mul (a b : number) : number :=
  match a, b with
  | NaN, _ | _, NaN => NaN
  | Num p, Num q => Num (p * q)
  | PosInf, PosInf | NegInf, NegInf => PosInf
  | PosInf, NegInf | NegInf, PosInf => NegInf
  | PosInf, Num q | Num q, PosInf =>
      match Qsign q with Eq => NaN | Gt => PosInf | Lt => NegInf end
  | NegInf, Num q | Num q, NegInf =>
      match Qsign q with Eq => NaN | Gt => NegInf | Lt => PosInf end
  end.

(** Truncation toward zero, the integer part used by ToInt16. *)
Definition trunc (q : Q) : Z := Z.quot (Qnum q) (Zpos (Qden q)).

(** Reduction modulo 2^16 into the signed range. *)
Definition wrap16 (z : Z) : Z :=
  let k := z mod 65536 in
  if 32768 <=? k then k - 65536 else k.

(** The conversion applied by a store into an [Int16Array] (ToInt16):
    NaN and the infinities become 0, a finite value is truncated and
    wrapped. *)
Definition ToInt16 (v : number) : Z :=
  match v with
  | Num q => wrap16 (trunc q)
  | NaN | PosInf | NegInf => 0
  end.

Definition one : number := Num 1.
Definition of_Z (z : Z) : number := Num (inject_Z z).

End JS.

(** ** The session: transport, application state, effects *)

(** [WebSocket.readyState]. *)
Inductive ReadyState : Type := CONNECTING | OPEN | CLOSING | CLOSED.

(** What the client puts on the wire: the JSON text
    [{type: "auth", token}] or a binary frame, the [ArrayBuffer] behind an
    [Int16Array]. *)
Inductive OutMsg : Type :=
  | AuthMsg (token : string)
  | AudioFrame (pcm : list Z).

(** A [WebSocket] object.  Its four handlers are closures of the
    [connectWebSocket] call that made it; [closureToken] is the [token]
    that call had captured, the one its [onclose] passes on when it
    re-schedules [connectWebSocket]. *)
Record Socket : Type := MkSocket {
  readyState : ReadyState;
  closureToken : option string
}.

(** The [connectionStatus] state. *)
Inductive ConnectionStatus : Type :=
  disconnected | connecting | connected | error.

(** A [toast({title, description, variant})] call. *)
Record Toast : Type := MkToast {
  title : string;
  description : string;
  destructive : bool
}.

(** [event.data] of a message event: text that [JSON.parse] rejects, or an
    object with its [type], [text] and [message] read as strings (a field
    the sender left out is read as the empty string). *)
Inductive Inbound : Type :=
  | Malformed
  | Json (type text message : string).

(** How the awaited [fetchAuthSession()] settles: rejected, or a session
    whose [tokens?.accessToken?.toString()] is [latestToken]. *)
Inductive AuthSession : Type :=
  | SessionRejected
  | SessionTokens (latestToken : option string).

(** How the [fetch] of [generate_minutes] settles. *)
Inductive MinutesResponse : Type :=
  | FetchRejected
  | ResponseNotOk
  | BodyNotJson
  | ResponseOk (minutes : string).

(** How [getUserMedia] and the audio graph set-up settle. *)
Inductive MediaResult : Type := MediaGranted | MediaFailed.

(** The effects a handler has on the outside, in the order it makes them. *)
Inductive Action : Type :=
  | Send (h : nat) (m : OutMsg)
  | SetConnectionStatus (st : ConnectionStatus)
  | ShowToast (t : Toast)
  | GetUserMedia
  | FetchAuthSession
  | FetchProfile
  | PostGenerateMinutes (transcript : string)
  | ConsoleWarn
  | ConsoleError.

(** The state of one mounted [TranscriptionApp] together with the
    module-level variables and the pending work of the event loop.

    - [sockets]: every [WebSocket] object made so far, [new WebSocket]
      appends; [globalWebSocket] holds an index into it;
    - [timers]: pending [setTimeout(connectWebSocket, 3000)] calls, oldest
      first, each with its delay and the token its closure captured;
    - [pendingOpens]: [onopen] handlers suspended at
      [await fetchAuthSession()];
    - [processorLive]: the audio graph is connected and delivers chunks;
    - [log]: the effects made so far, oldest first. *)
Record App : Type := MkApp {
  sockets : list Socket;
  globalWebSocket : option nat;
  isExplicitlyClosing : bool;
  connectionStatus : ConnectionStatus;
  token : option string;
  balance : option Z;
  isRecording : bool;
  processorLive : bool;
  allTranscript : string;
  immediate : string;
  minutes : string;
  timers : list (Z * option string);
  pendingOpens : nat;
  log : list Action
}.

Definition with_sockets (x : list Socket) (s : App) : App :=
  MkApp x (globalWebSocket s) (isExplicitlyClosing s) (connectionStatus s)
    (token s) (balance s) (isRecording s) (processorLive s) (allTranscript s)
    (immediate s) (minutes s) (timers s) (pendingOpens s) (log s).

Definition with_globalWebSocket (x : option nat) (s : App) : App :=
  MkApp (sockets s) x (isExplicitlyClosing s) (connectionStatus s)
    (token s) (balance s) (isRecording s) (processorLive s) (allTranscript s)
    (immediate s) (minutes s) (timers s) (pendingOpens s) (log s).

Definition with_isExplicitlyClosing (x : bool) (s : App) : App :=
  MkApp (sockets s) (globalWebSocket s) x (connectionStatus s)
    (token s) (balance s) (isRecording s) (processorLive s) (allTranscript s)
    (immediate s) (minutes s) (timers s) (pendingOpens s) (log s).

Definition with_connectionStatus (x : ConnectionStatus) (s : App) : App :=
  MkApp (sockets s) (globalWebSocket s) (isExplicitlyClosing s) x
    (token s) (balance s) (isRecording s) (processorLive s) (allTranscript s)
    (immediate s) (minutes s) (timers s) (pendingOpens s) (log s).

Definition with_token (x : option string) (s : App) : App :=
  MkApp (sockets s) (globalWebSocket s) (isExplicitlyClosing s)
    (connectionStatus s) x (balance s) (isRecording s) (processorLive s)
    (allTranscript s) (immediate s) (minutes s) (timers s) (pendingOpens s)
    (log s).

Definition with_balance (x : option Z) (s : App) : App :=
  MkApp (sockets s) (globalWebSocket s) (isExplicitlyClosing s)
    (connectionStatus s) (token s) x (isRecording s) (processorLive s)
    (allTranscript s) (immediate s) (minutes s) (timers s) (pendingOpens s)
    (log s).

Definition with_isRecording (x : bool) (s : App) : App :=
  MkApp (sockets s) (globalWebSocket s) (isExplicitlyClosing s)
    (connectionStatus s) (token s) (balance s) x (processorLive s)
    (allTranscript s) (immediate s) (minutes s) (timers s) (pendingOpens s)
    (log s).

Definition with_processorLive (x : bool) (s : App) : App :=
  MkApp (sockets s) (globalWebSocket s) (isExplicitlyClosing s)
    (connectionStatus s) (token s) (balance s) (isRecording s) x
    (allTranscript s) (immediate s) (minutes s) (timers s) (pendingOpens s)
    (log s).

Definition with_allTranscript (x : string) (s : App) : App :=
  MkApp (sockets s) (globalWebSocket s) (isExplicitlyClosing s)
    (connectionStatus s) (token s) (balance s) (isRecording s)
    (processorLive s) x (immediate s) (minutes s) (timers s) (pendingOpens s)
    (log s).

Definition with_immediate (x : string) (s : App) : App :=
  MkApp (sockets s) (globalWebSocket s) (isExplicitlyClosing s)
    (connectionStatus s) (token s) (balance s) (isRecording s)
    (processorLive s) (allTranscript s) x (minutes s) (timers s)
    (pendingOpens s) (log s).

Definition with_minutes (x : string) (s : App) : App :=
  MkApp (sockets s) (globalWebSocket s) (isExplicitlyClosing s)
    (connectionStatus s) (token s) (balance s) (isRecording s)
    (processorLive s) (allTranscript s) (immediate s) x (timers s)
    (pendingOpens s) (log s).

Definition with_timers (x : list (Z * option string)) (s : App) : App :=
  MkApp (sockets s) (globalWebSocket s) (isExplicitlyClosing s)
    (connectionStatus s) (token s) (balance s) (isRecording s)
    (processorLive s) (allTranscript s) (immediate s) (minutes s) x
    (pendingOpens s) (log s).

Definition with_pendingOpens (x : nat) (s : App) : App :=
  MkApp (sockets s) (globalWebSocket s) (isExplicitlyClosing s)
    (connectionStatus s) (token s) (balance s) (isRecording s)
    (processorLive s) (allTranscript s) (immediate s) (minutes s) (timers s)
    x (log s).

Definition with_log (x : list Action) (s : App) : App :=
  MkApp (sockets s) (globalWebSocket s) (isExplicitlyClosing s)
    (connectionStatus s) (token s) (balance s) (isRecording s)
    (processorLive s) (allTranscript s) (immediate s) (minutes s) (timers s)
    (pendingOpens s) x.

#[global] Instance ReadyState_eq_dec : EqDecision ReadyState.
Proof. solve_decision. Defined.

#[global] Instance ConnectionStatus_eq_dec : EqDecision ConnectionStatus.
Proof. solve_decision. Defined.

#[global] Instance OutMsg_eq_dec : EqDecision OutMsg.
Proof. solve_decision. Defined.

#[global] Instance Toast_eq_dec : EqDecision Toast.
Proof. solve_decision. Defined.

#[global] Instance Action_eq_dec : EqDecision Action.
Proof. solve_decision. Defined.

(** JavaScript truthiness of a [string | null | undefined]: only a
    non-empty string is truthy. *)
Definition truthy (o : option string) : bool :=
  match o with
  | Some t => negb (String.eqb t EmptyString)
  | None => false
  end.

(** Record an effect. *)
Definition emit (a : Action) (s : App) : App := with_log (log s ++ [a]) s.

Definition setConnectionStatus (st : ConnectionStatus) (s : App) : App :=
  emit (SetConnectionStatus st) (with_connectionStatus st s).

Definition toast (t : Toast) (s : App) : App := emit (ShowToast t) s.

Definition readyState_of (h : nat) (s : App) : option ReadyState :=
  readyState <$> sockets s !! h.

Definition set_readyState (h : nat) (r : ReadyState) (s : App) : App :=
  with_sockets
    (alter (fun ws => MkSocket r (closureToken ws)) h (sockets s)) s.

(** [ws.send(m)] on socket [h]: throws (InvalidStateError) while the
    socket is CONNECTING, transmits while it is OPEN, and silently discards
    the data once it is CLOSING or CLOSED.  [None] is the exception. *)
Definition ws_send (h : nat) (m : OutMsg) (s : App) : option App :=
  match readyState_of h s with
  | Some CONNECTING => None
  | Some OPEN => Some (emit (Send h m) s)
  | _ => Some s
  end.

(** [ws.close()]: a socket that is CONNECTING or OPEN becomes CLOSING at
    once; its close event comes later. *)
Definition ws_close (h : nat) (s : App) : App :=
  match readyState_of h s with
  | Some CONNECTING | Some OPEN => set_readyState h CLOSING s
  | _ => s
  end.

(** The guard at the head of [connectWebSocket]: a socket is held and it
    is OPEN or CONNECTING. *)
Definition socket_busy (s : App) : bool :=
  match globalWebSocket s with
  | Some g =>
      match readyState_of g s with
      | Some OPEN | Some CONNECTING => true
      | _ => false
      end
  | None => false
  end.

(** ** The handlers shared, word for word, by both components *)

(** [connectWebSocket], as the closure that captured [tok] for [token]. *)
Definition connectWebSocket (tok : option string) (s : App) : App :=
  if socket_busy s then s
  else if negb (truthy tok) then s
  else
    let s1 := setConnectionStatus connecting s in
    let s2 := with_isExplicitlyClosing false s1 in
    let h := length (sockets s2) in
    let s3 := with_sockets (sockets s2 ++ [MkSocket CONNECTING tok]) s2 in
    with_globalWebSocket (Some h) s3.

(** [onopen], up to its [await fetchAuthSession()]. *)
Definition onopen_begin (s : App) : App :=
  with_pendingOpens (S (pendingOpens s)) (emit FetchAuthSession s).

(** [onopen], from the point where the awaited session settles: the guarded
    send inside [try], the [catch] that only logs, and then
    [setConnectionStatus("connected")] in every case. *)
Definition onopen_resume (r : AuthSession) (s : App) : App :=
  let s1 :=
    match r with
    | SessionRejected => emit ConsoleError s
    | SessionTokens latestToken =>
        match globalWebSocket s, latestToken with
        | Some g, Some t =>
            if truthy latestToken then
              match ws_send g (AuthMsg t) s with
              | Some s' => s'
              | None => emit ConsoleError s
              end
            else s
        | _, _ => s
        end
    end in
  setConnectionStatus connected s1.

(** [onmessage]. *)
Definition onmessage (data : Inbound) (s : App) : App :=
  match data with
  | Malformed => emit ConsoleError s
  | Json type text message =>
      if String.eqb type "error" && String.eqb message "認証失敗" then
        emit ConsoleError
          (toast (MkToast "認証エラー"
                    "WebSocket認証に失敗しました。詳細をコンソールで確認してください。"
                    true) s)
      else if String.eqb type "transcription" then
        with_allTranscript (allTranscript s ++ " " ++ text)%string s
      else if String.eqb type "immediate" then
        with_immediate text s
      else if String.eqb type "minutes" then
        with_minutes text s
      else if String.eqb type "error" then
        toast (MkToast "エラー" message true) s
      else s
  end.

(** [onerror]. *)
Definition onerror (s : App) : App :=
  if isExplicitlyClosing s then s
  else setConnectionStatus error (emit ConsoleError s).

(** [onclose] of a socket whose closure captured [tok], for a close event
    with code [code]. *)
Definition onclose (tok : option string) (code : Z) (s : App) : App :=
  if isExplicitlyClosing s then s
  else
    let s1 := setConnectionStatus disconnected s in
    if code =? 4001 then
      emit ConsoleError
        (toast (MkToast "認証エラー"
                  "WebSocket接続が認証エラーで切断されました。" true) s1)
    else if negb (code =? 1000) && negb (code =? 1001) then
      with_timers (timers s1 ++ [(3000, tok)]) s1
    else s1.

(** The effect on [token, connectWebSocket]. *)
Definition tokenEffect (s : App) : App :=
  if truthy (token s) then connectWebSocket (token s) s
  else
    let s1 :=
      match globalWebSocket s with
      | Some g =>
          with_globalWebSocket None
            (ws_close g (with_isExplicitlyClosing true s))
      | None => s
      end in
    setConnectionStatus disconnected s1.

(** [stopRecording]. *)
Definition stopRecording (s : App) : App :=
  with_isRecording false (with_processorLive false s).

(** The click handler of the logout button; [logout()] itself belongs to
    the authentication context and shows up later as a token change. *)
Definition onClickLogout (s : App) : App :=
  let s1 := with_isExplicitlyClosing true s in
  let s2 :=
    match globalWebSocket s1 with
    | Some g => ws_close g s1
    | None => s1
    end in
  let s3 := with_globalWebSocket None s2 in
  if isRecording s3 then stopRecording s3 else s3.

(** [fetchProfile] of [useUserProfile], up to its request. *)
Definition fetchProfile (s : App) : App :=
  if truthy (token s) then emit FetchProfile s else s.

(** [generateMinutes], with the way its request settles. *)
Definition generateMinutes (resp : MinutesResponse) (s : App) : App :=
  if negb (truthy (token s)) then s
  else
    let s1 := emit (PostGenerateMinutes (allTranscript s)) s in
    match resp with
    | ResponseOk m =>
        toast (MkToast "成功" "議事録が生成されました。" false)
          (fetchProfile (with_minutes m s1))
    | FetchRejected | ResponseNotOk | BodyNotJson =>
        toast (MkToast "エラー" "議事録の生成に失敗しました。" true)
          (emit ConsoleError s1)
    end.

(** The generate button carries [disabled={!allTranscript}]. *)
Definition generateDisabled (s : App) : bool :=
  String.eqb (allTranscript s) EmptyString.

Definition onClickGenerate (resp : MinutesResponse) (s : App) : App :=
  if generateDisabled s then s else generateMinutes resp s.

Definition toastNotConnected : Toast :=
  MkToast "接続エラー" "サーバーに接続されていません。再接続を待ってください。" true.

Definition toastNoBalance : Toast :=
  MkToast "残高不足" "利用可能時間がありません。クレジットを購入してください。" true.

Definition toastMicrophone : Toast :=
  MkToast "エラー" "マイクへのアクセスに失敗しました。" true.

(** ** The two components: encoder, start gate, chunk callback *)

(** The newer component (AudioWorklet capture). *)
Module AudioWorkletApp.

(** The body of the [for] loop of [convertFloat32ToInt16], [n] iterations
    from index [i]: [buf[i] = Math.min(1, buffer[i]) * 0x7fff].  An index
    outside [buffer] would read [undefined], which the arithmetic turns
    into NaN; the loop bound keeps [i] inside. *)
Fixpoint convert_loop (n i : nat) (buffer : list JS.number) (buf : list Z)
  : list Z :=
  match n with
  | O => buf
  | S n' =>
      let x := default JS.NaN (buffer !! i) in
      let v := JS.mul (JS.Math_min JS.one x) (JS.of_Z 0x7fff) in
      convert_loop n' (S i) buffer (<[i := JS.ToInt16 v]> buf)
  end.

(** [convertFloat32ToInt16]: a zeroed [Int16Array] of the input's length,
    filled by the loop. *)
Definition convertFloat32ToInt16 (buffer : list JS.number) : list Z :=
  let l := length buffer in
  let buf := replicate l 0 in
  convert_loop l 0 buffer buf.

(** [startRecording], with the way the device request and the set-up of
    the audio graph settle: the connection gate, the balance gate, then
    [getUserMedia]. *)
Definition startRecording (media : MediaResult) (s : App) : App :=
  if negb (bool_decide (connectionStatus s = connected)) then
    toast toastNotConnected s
  else if match balance s with Some b => b <=? 0 | None => false end then
    toast toastNoBalance s
  else
    let s1 := emit GetUserMedia s in
    match media with
    | MediaGranted => with_isRecording true (with_processorLive true s1)
    | MediaFailed => toast toastMicrophone (emit ConsoleError s1)
    end.

(** [processor.port.onmessage] for one chunk [data] posted by the worklet.
    [None] would be an exception escaping the callback. *)
Definition port_onmessage (data : list JS.number) (s : App) : option App :=
  match globalWebSocket s with
  | Some g =>
      match readyState_of g s with
      | Some OPEN => ws_send g (AudioFrame (convertFloat32ToInt16 data)) s
      | _ => Some s
      end
  | None => Some s
  end.

End AudioWorkletApp.

(** The older component (ScriptProcessor capture). *)
Module ScriptProcessorApp.

Fixpoint convert_loop (n i : nat) (buffer : list JS.number) (buf : list Z)
  : list Z :=
  match n with
  | O => buf
  | S n' =>
      let x := default JS.NaN (buffer !! i) in
      let v := JS.mul (JS.Math_min JS.one x) (JS.of_Z 0x7fff) in
      convert_loop n' (S i) buffer (<[i := JS.ToInt16 v]> buf)
  end.

Definition convertFloat32ToInt16 (buffer : list JS.number) : list Z :=
  let l := length buffer in
  let buf := replicate l 0 in
  convert_loop l 0 buffer buf.

(** [startRecording] of the older component: the connection gate, then
    [getUserMedia]; this component keeps no balance. *)
Definition startRecording (media : MediaResult) (s : App) : App :=
  if negb (bool_decide (connectionStatus s = connected)) then
    toast toastNotConnected s
  else
    let s1 := emit GetUserMedia s in
    match media with
    | MediaGranted => with_isRecording true (with_processorLive true s1)
    | MediaFailed => toast toastMicrophone (emit ConsoleError s1)
    end.

(** [Math.random() < 0.01] for a drawn value [rnd]. *)
Definition below_one_percent (rnd : Q) : bool :=
  negb (Qle_bool (1 # 100) rnd).

(** [onaudioprocess] for one input buffer; [rnd] is what [Math.random()]
    returns if it gets called. *)
Definition onaudioprocess (inputData : list JS.number) (rnd : Q) (s : App)
  : option App :=
  match globalWebSocket s with
  | Some g =>
      match readyState_of g s with
      | Some OPEN =>
          ws_send g (AudioFrame (convertFloat32ToInt16 inputData)) s
      | _ => Some (if below_one_percent rnd then emit ConsoleWarn s else s)
      end
  | None => Some (if below_one_percent rnd then emit ConsoleWarn s else s)
  end.

End ScriptProcessorApp.

(** What one sample becomes: the right-hand side of the loop's store. *)
Definition encode_sample (x : JS.number) : Z :=
  JS.ToInt16 (JS.mul (JS.Math_min JS.one x) (JS.of_Z 0x7fff)).

(** ** The event loop *)

Inductive Component : Type := AudioWorklet | ScriptProcessor.

Definition startRecording (c : Component) : MediaResult -> App -> App :=
  match c with
  | AudioWorklet => AudioWorkletApp.startRecording
  | ScriptProcessor => ScriptProcessorApp.startRecording
  end.

(** The chunk callback of a component; [rnd] is only drawn by the older
    one. *)
Definition onchunk (c : Component) (data : list JS.number) (rnd : Q) (s : App)
  : option App :=
  match c with
  | AudioWorklet => AudioWorkletApp.port_onmessage data s
  | ScriptProcessor => ScriptProcessorApp.onaudioprocess data rnd s
  end.

Definition convertFloat32ToInt16 (c : Component) : list JS.number -> list Z :=
  match c with
  | AudioWorklet => AudioWorkletApp.convertFloat32ToInt16
  | ScriptProcessor => ScriptProcessorApp.convertFloat32ToInt16
  end.

(** What the browser, the user and the servers can make happen.  Handlers
    run to completion one at a time; the one suspension point that other
    events can fall into is the [await] inside [onopen], so that handler is
    split between [WsOpen] and [AuthSessionSettled]. *)
Inductive Event : Type :=
  | TokenChanged (t : option string)
  | ProfileLoaded (seconds_balance : Z)
  | TimerFired
  | WsOpen (h : nat)
  | AuthSessionSettled (r : AuthSession)
  | WsMessage (h : nat) (data : Inbound)
  | WsError (h : nat)
  | WsClose (h : nat) (code : Z)
  | ClickStart (media : MediaResult)
  | ClickStop
  | ClickGenerate (resp : MinutesResponse)
  | ClickLogout
  | Chunk (data : list JS.number) (rnd : Q).

(** One turn of the event loop.  An event that cannot happen in the
    current state (an open event for a socket that is not CONNECTING, a
    click on a button that is disabled or not rendered, a chunk from an
    audio graph that is not connected, ...) leaves the state as it is.

    The component is taken to stay mounted, and [TokenChanged] to run the
    token effect every time.  React runs that effect only when the token
    differs from the one of the previous render, and the page mounts the
    component under [ProtectedRoute], which unmounts it when the token is
    cleared: the module-level connection state (sockets, held socket,
    explicit-close flag, timers) outlives the component, its [useState]
    values do not.  So the runs of the model cover those of the page for
    the connection state; a statement about the component's own state over
    a run holds for as long as the token is not cleared. *)
Definition step (c : Component) (s : App) (e : Event) : App :=
  match e with
  | TokenChanged t => tokenEffect (with_token t s)
  | ProfileLoaded b => with_balance (Some b) s
  | TimerFired =>
      match timers s with
      | (_, tok) :: rest => connectWebSocket tok (with_timers rest s)
      | [] => s
      end
  | WsOpen h =>
      match readyState_of h s with
      | Some CONNECTING => onopen_begin (set_readyState h OPEN s)
      | _ => s
      end
  | AuthSessionSettled r =>
      match pendingOpens s with
      | S n => onopen_resume r (with_pendingOpens n s)
      | O => s
      end
  | WsMessage h data =>
      match readyState_of h s with
      | Some OPEN => onmessage data s
      | _ => s
      end
  | WsError h =>
      match readyState_of h s with
      | Some CLOSED | None => s
      | Some _ => onerror s
      end
  | WsClose h code =>
      match sockets s !! h with
      | Some ws =>
          match readyState ws with
          | CLOSED => s
          | _ => onclose (closureToken ws) code (set_readyState h CLOSED s)
          end
      | None => s
      end
  | ClickStart media =>
      if isRecording s then s
      else if negb (bool_decide (connectionStatus s = connected)) then s
      else startRecording c media s
  | ClickStop => if isRecording s then stopRecording s else s
  | ClickGenerate resp => onClickGenerate resp s
  | ClickLogout => onClickLogout s
  | Chunk data rnd =>
      if processorLive s then default s (onchunk c data rnd s) else s
  end.

Definition run (c : Component) (tr : list Event) (s : App) : App :=
  fold_left (step c) tr s.

(** The state at mount: the initial values of the module-level variables
    and of every [useState] and [useRef]. *)
Definition init : App :=
  MkApp [] None false disconnected None None false false
    EmptyString EmptyString EmptyString [] 0 [].

(** ** Observations on a state and on a log *)

(** The messages transmitted on socket [h], oldest first. *)
Definition sent_on (h : nat) (l : list Action) : list OutMsg :=
  omap (fun a => match a with
                 | Send h' m => if bool_decide (h' = h) then Some m else None
                 | _ => None
                 end) l.

Definition is_auth (m : OutMsg) : bool :=
  match m with AuthMsg _ => true | AudioFrame _ => false end.

Definition is_audio (m : OutMsg) : bool :=
  match m with AuthMsg _ => false | AudioFrame _ => true end.

(** A socket in the Connecting or Connected transport state. *)
Definition live (r : ReadyState) : bool :=
  match r with CONNECTING | OPEN => true | CLOSING | CLOSED => false end.

(** The handles whose socket is CONNECTING or OPEN. *)
Definition live_handles (s : App) : list nat :=
  filter (fun h => readyState_of h s = Some CONNECTING
                   \/ readyState_of h s = Some OPEN)
         (seq 0 (length (sockets s))).

(** The number of device-access requests in a log. *)
Definition device_requests (l : list Action) : nat :=
  length (filter (fun a => a = GetUserMedia) l).

(** Every open event is followed at once by the settling of its credential
    fetch, with a credential; no other settling occurs. *)
Fixpoint prompt_auth (tr : list Event) : bool :=
  match tr with
  | [] => true
  | WsOpen _ :: tr' =>
      match tr' with
      | AuthSessionSettled (SessionTokens (Some t)) :: tr'' =>
          negb (String.eqb t EmptyString) && prompt_auth tr''
      | _ => false
      end
  | AuthSessionSettled _ :: _ => false
  | _ :: tr' => prompt_auth tr'
  end.

(** The inbound messages [msgs] handled one after the other. *)
Definition deliver (msgs : list Inbound) (s : App) : App :=
  fold_left (fun s data => onmessage data s) msgs s.

Definition is_immediate (data : Inbound) : bool :=
  match data with
  | Json type _ _ => String.eqb type "immediate"
  | Malformed => false
  end.

(** Everything of a state but its log. *)
Definition forget_log (s : App) : App := with_log [] s.

(** A session in which the connection drops while capture runs: connect,
    open, authenticate, start capture, unexpected close, the reconnection
    timer fires, the new socket opens, and a chunk arrives while the
    credential fetch of the new [onopen] is still pending. *)
Definition reconnect_while_recording : list Event :=
  [ TokenChanged (Some "T1");
    WsOpen 0;
    AuthSessionSettled (SessionTokens (Some "T1"));
    ProfileLoaded 1800;
    ClickStart MediaGranted;
    WsClose 0 1006;
    TimerFired;
    WsOpen 1;
    Chunk [JS.Num (1 # 2)] (1 # 2) ]%string.

(** A first connection with capture: connect, open, authenticate, start
    capture, one chunk. *)
Definition first_connection_with_capture : list Event :=
  [ TokenChanged (Some "T1");
    WsOpen 0;
    AuthSessionSettled (SessionTokens (Some "T1"));
    ClickStart MediaGranted;
    Chunk [JS.Num 1; JS.Num (-1)] (1 # 2) ]%string.

(** ** Invariants of the session *)

(** Only the socket held in [globalWebSocket] can be CONNECTING or OPEN. *)
Definition one_live (s : App) : Prop :=
  forall h r,
    readyState_of h s = Some r -> live r = true -> globalWebSocket s = Some h.

(** On socket [h] nothing was transmitted before the auth message: an OPEN
    socket has its auth message out, a CONNECTING one (or a handle that
    names no socket) has nothing out, and whatever is out starts with the
    auth message. *)
Definition auth_first_on (s : App) (h : nat) : Prop :=
  match sent_on h (log s) with
  | [] => readyState_of h s <> Some OPEN
  | m :: _ =>
      is_auth m = true
      /\ readyState_of h s <> Some CONNECTING
      /\ readyState_of h s <> None
  end.

Definition session_inv (s : App) : Prop :=
  pendingOpens s = 0%nat /\ one_live s /\ forall h, auth_first_on s h.

(** [s'] differs from [s] in nothing the invariants look at: same sockets,
    same held handle, same suspended handlers, same transmissions. *)
Definition quiet (s s' : App) : Prop :=
  sockets s' = sockets s
  /\ globalWebSocket s' = globalWebSocket s
  /\ pendingOpens s' = pendingOpens s
  /\ forall h, sent_on h (log s') = sent_on h (log s).

(** ** The worklet: [RecorderProcessor] *)

Module RecorderProcessor.

(** The fields the constructor sets. *)
Record t : Type := Mk {
  bufferSize : nat;
  buffer : list JS.number;
  bufferIndex : nat
}.

(** The constructor: a zeroed [Float32Array] of 1024 samples. *)
Definition new : t := Mk 1024 (replicate 1024 (JS.Num 0)) 0.

(** The body of the loop of [process] for one sample [x]: the store
    [buffer[bufferIndex++] = x] (a store outside a typed array is ignored),
    then, when the index has reached [bufferSize], the post of a copy of
    the buffer and the reset of the index.  The second component is the
    chunk posted, if any. *)
Definition push (x : JS.number) (st : t) : t * option (list JS.number) :=
  let buf := <[bufferIndex st := x]> (buffer st) in
  let idx := S (bufferIndex st) in
  if bool_decide (idx = bufferSize st) then (Mk (bufferSize st) buf 0, Some buf)
  else (Mk (bufferSize st) buf idx, None).

(** The loop over [channelData], collecting the chunks posted. *)
Fixpoint loop (channelData : list JS.number) (st : t)
    (posted : list (list JS.number)) : t * list (list JS.number) :=
  match channelData with
  | [] => (st, posted)
  | x :: rest =>
      let '(st', p) := push x st in
      loop rest st' (posted ++ option_list p)
  end.

(** [channelData] of a call: [inputs[0][0]] when [inputs[0]] exists and is
    not empty. *)
Definition channelData (inputs : list (list (list JS.number)))
  : option (list JS.number) :=
  match inputs with
  | (data :: _) :: _ => Some data
  | _ => None
  end.

(** [process(inputs, outputs, parameters)]: the new state, the chunks
    posted to the main thread, and the returned value. *)
Definition process (inputs : list (list (list JS.number))) (st : t)
  : t * list (list JS.number) * bool :=
  match channelData inputs with
  | Some data => let '(st', posted) := loop data st [] in (st', posted, true)
  | None => (st, [], true)
  end.

(** A sequence of calls of [process], with all the chunks posted. *)
Fixpoint feed (calls : list (list (list (list JS.number)))) (st : t)
    (posted : list (list JS.number)) : t * list (list JS.number) :=
  match calls with
  | [] => (st, posted)
  | inputs :: rest =>
      let '(st', p, _) := process inputs st in
      feed rest st' (posted ++ p)
  end.

(** The samples of the first channel over a sequence of calls. *)
Definition stream (calls : list (list (list (list JS.number))))
  : list JS.number :=
  concat (map (fun inputs => default [] (channelData inputs)) calls).

(** The samples stored since the last post. *)
Definition pending (st : t) : list JS.number :=
  take (bufferIndex st) (buffer st).

(** The buffer has its declared size and the index is inside it. *)
Definition wf (st : t) : Prop :=
  length (buffer st) = bufferSize st /\ (bufferIndex st < bufferSize st)%nat.

End RecorderProcessor.

(** The chunks the worklet posts reach [processor.port.onmessage] one by
    one, in order; [None] when a handler throws. *)
Fixpoint port_messages (chunks : list (list JS.number)) (s : App)
  : option App :=
  match chunks with
  | [] => Some s
  | data :: rest =>
      match AudioWorkletApp.port_onmessage data s with
      | Some s' => port_messages rest s'
      | None => None
      end
  end.

(** A connected session: connect, open, authenticate. *)
Definition connected_session : App :=
  run AudioWorklet
    [ TokenChanged (Some "T1"%string); WsOpen 0;
      AuthSessionSettled (SessionTokens (Some "T1"%string)) ] init.

(** The reconnection timers all carry the fixed delay and a credential,
    and so does the closure of every socket. *)
Definition timers_ok (s : App) : Prop :=
  Forall (fun t => fst t = 3000 /\ truthy (snd t) = true) (timers s)
  /\ Forall (fun ws => truthy (closureToken ws) = true) (sockets s).

(** An event that leaves the session without a credential.  The page
    mounts the component under [ProtectedRoute], which stops rendering its
    children as soon as the context is not authenticated: such an event
    ends the life of the mounted component. *)
Definition clears_token (e : Event) : bool :=
  match e with
  | TokenChanged t => negb (truthy t)
  | _ => false
  end.

(** The events whose handler calls [connectWebSocket]: a reconnection
    timer that fires and the token effect on a non-empty token. *)
Definition may_connect (e : Event) : bool :=
  match e with
  | TimerFired => true
  | TokenChanged t => truthy t
  | _ => false
  end.

(** ** Division of doubles *)

Module Double.

(** A finite double is written [(k, x)] for the number [k * 2^x], with
    [|k| <= 2^53].  Exponent overflow and subnormals are left out: the
    one division modelled, a whole number of seconds by 60, stays far
    from both. *)
Definition t : Type := (Z * Z)%type.

(** The binade of the positive rational [|n| / d], for [n <> 0] and
    [0 < d]: the [e] with [2^e <= |n| / d < 2^(e+1)]. *)
Definition binade (n d : Z) : Z :=
  let a := Z.abs n in
  let e0 := Z.log2 a - Z.log2 d in
  let reaches :=
    if e0 <? 0 then d <=? a * 2 ^ (- e0) else d * 2 ^ e0 <=? a in
  if reaches then e0 else e0 - 1.

(** [n / d] on doubles holding the whole numbers [n] and [d], [0 < d]: the
    exact quotient rounded to the nearest number with a 53 bit
    significand, a tie going to the even significand. *)
Definition div (n d : Z) : t :=
  if n =? 0 then (0, 0)
  else
    let x := binade n d - 52 in
    let num := if x <? 0 then n * 2 ^ (- x) else n in
    let den := if x <? 0 then d else d * 2 ^ x in
    let f := num / den in
    let r2 := 2 * (num mod den) in
    let k :=
      if r2 <? den then f
      else if den <? r2 then f + 1
      else if Z.even f then f else f + 1 in
    (k, x).

(** [Math.floor]. *)
Definition floor (v : t) : Z :=
  let '(k, x) := v in
  if x <? 0 then k / 2 ^ (- x) else k * 2 ^ x.

End Double.

(** ** The balance display and the authentication context *)

(** [formatSeconds], for a whole number of seconds held in a double (every
    whole number up to 2^53 in magnitude is one): [Math.floor] of the
    double quotient, the remainder of [%], which is exact and takes the
    sign of the dividend, and the template literal, which prints a whole
    number below 10^21 in magnitude with all its digits. *)
Definition formatSeconds (seconds : Z) : string :=
  let m := Double.floor (Double.div seconds 60) in
  let s := Z.rem seconds 60 in
  (pretty m ++ "分" ++ pretty s ++ "秒")%string.

(** The remaining time shown: [formatSeconds(balance ?? 0)]. *)
Definition remainingTime (s : App) : string :=
  formatSeconds (default 0 (balance s)).

Module AuthContext.

(** The [User] of the context. *)
Record User : Type := MkUser {
  userId : string;
  email : option string;
  phoneNumber : option string;
  givenName : option string;
  familyName : option string
}.

(** The state of [AuthProvider] with the browser's [localStorage]. *)
Record State : Type := MkState {
  token : option string;
  refreshToken : option string;
  user : option User;
  localStorage : gmap string string
}.

(** [isAuthenticated: !!token]. *)
Definition isAuthenticated (st : State) : bool := truthy (token st).

(** [clearAuthData]. *)
Definition clearAuthData (st : State) : State :=
  MkState None None None
    (delete "auth_user_data"
       (delete "auth_refresh_token"
          (delete "auth_access_token" (localStorage st)))).

(** [logout], with whether the awaited [signOut()] resolves: the [catch]
    only warns, the [finally] clears.  The second component is the number
    of console warnings. *)
Definition logout (signOutResolves : bool) (st : State) : State * nat :=
  let warnings := if signOutResolves then 0%nat else 1%nat in
  (clearAuthData st, warnings).

End AuthContext.

(** ** Strings of UTF-16 code units and regular expressions *)

(** The registration form looks inside its strings (lengths, character
    classes), so there a JavaScript string is the list of its UTF-16 code
    units, which is what [length] counts and what a regular expression
    without the [u] flag matches on. *)
Module Regex.

(** A regular expression over code units. *)
Inductive t : Type :=
  | Void
  | Eps
  | Class (p : N -> bool)
  | Seq (r1 r2 : t)
  | Alt (r1 r2 : t)
  | Star (r : t).

(** [r+], [r?], [r{n}] and a literal. *)
Definition Plus (r : t) : t := Seq r (Star r).
Definition Opt (r : t) : t := Alt Eps r.

Fixpoint Repeat (n : nat) (r : t) : t :=
  match n with
  | O => Eps
  | S n' => Seq r (Repeat n' r)
  end.

Fixpoint Lit (s : list N) : t :=
  match s with
  | [] => Eps
  | c :: s' => Seq (Class (N.eqb c)) (Lit s')
  end.

(** The strings a regular expression matches in full. *)
Inductive Matches : t -> list N -> Prop :=
  | MEps : Matches Eps []
  | MClass p c : p c = true -> Matches (Class p) [c]
  | MSeq r1 r2 s1 s2 :
      Matches r1 s1 -> Matches r2 s2 -> Matches (Seq r1 r2) (s1 ++ s2)
  | MAltL r1 r2 s : Matches r1 s -> Matches (Alt r1 r2) s
  | MAltR r1 r2 s : Matches r2 s -> Matches (Alt r1 r2) s
  | MStar0 r : Matches (Star r) []
  | MStarS r s1 s2 :
      Matches r s1 -> Matches (Star r) s2 -> Matches (Star r) (s1 ++ s2).

(** The matcher, by derivatives. *)
Fixpoint nullable (r : t) : bool :=
  match r with
  | Void => false
  | Eps => true
  | Class _ => false
  | Seq r1 r2 => nullable r1 && nullable r2
  | Alt r1 r2 => nullable r1 || nullable r2
  | Star _ => true
  end.

Fixpoint deriv (c : N) (r : t) : t :=
  match r with
  | Void => Void
  | Eps => Void
  | Class p => if p c then Eps else Void
  | Seq r1 r2 =>
      if nullable r1 then Alt (Seq (deriv c r1) r2) (deriv c r2)
      else Seq (deriv c r1) r2
  | Alt r1 r2 => Alt (deriv c r1) (deriv c r2)
  | Star r' => Seq (deriv c r') (Star r')
  end.

Fixpoint matches (r : t) (s : list N) : bool :=
  match s with
  | [] => nullable r
  | c :: s' => matches (deriv c r) s'
  end.

Definition any : t := Class (fun _ => true).

(** [/^r$/.test(s)]: the whole string matches. *)
Definition test_whole (r : t) (s : list N) : bool := matches r s.

(** [/r/.test(s)]: some substring matches. *)
Definition test (r : t) (s : list N) : bool :=
  matches (Seq (Star any) (Seq r (Star any))) s.

End Regex.

(** Character classes. *)
Definition in_range (lo hi c : N) : bool := ((lo <=? c) && (c <=? hi))%N.

Definition one_of (l : list N) (c : N) : bool := existsb (N.eqb c) l.

(** [\s]: the white space and line terminator code units. *)
Definition is_space (c : N) : bool :=
  one_of [9; 10; 11; 12; 13; 32; 160; 5760; 8232; 8233; 8239; 8287;
          12288; 65279]%N c
  || in_range 8192 8202 c.

(** [String.prototype.trim]. *)
Fixpoint trimStart (s : list N) : list N :=
  match s with
  | c :: s' => if is_space c then trimStart s' else s
  | [] => []
  end.

Definition trim (s : list N) : list N :=
  reverse (trimStart (reverse (trimStart s))).

(** ** The registration form *)

Module RegisterForm.

(** The keys of [FormData]. *)
Inductive Key : Type :=
  | k_email | k_password | k_confirmPassword
  | k_givenName | k_familyName | k_phoneNumber.

Record FormData : Type := MkFormData {
  email : list N;
  password : list N;
  confirmPassword : list N;
  givenName : list N;
  familyName : list N;
  phoneNumber : list N
}.

(** [FormErrors]: a key that is absent or [undefined] is [None]. *)
Record FormErrors : Type := MkFormErrors {
  email_error : option string;
  password_error : option string;
  confirmPassword_error : option string;
  givenName_error : option string;
  familyName_error : option string;
  phoneNumber_error : option string
}.

Definition noErrors : FormErrors := MkFormErrors None None None None None None.

(** [{...prev, [name]: value}] on either record. *)
Definition setField (name : Key) (value : list N) (d : FormData) : FormData :=
  match name with
  | k_email =>
      MkFormData value (password d) (confirmPassword d) (givenName d)
        (familyName d) (phoneNumber d)
  | k_password =>
      MkFormData (email d) value (confirmPassword d) (givenName d)
        (familyName d) (phoneNumber d)
  | k_confirmPassword =>
      MkFormData (email d) (password d) value (givenName d) (familyName d)
        (phoneNumber d)
  | k_givenName =>
      MkFormData (email d) (password d) (confirmPassword d) value
        (familyName d) (phoneNumber d)
  | k_familyName =>
      MkFormData (email d) (password d) (confirmPassword d) (givenName d)
        value (phoneNumber d)
  | k_phoneNumber =>
      MkFormData (email d) (password d) (confirmPassword d) (givenName d)
        (familyName d) value
  end.

Definition setError (name : Key) (e : option string) (r : FormErrors)
  : FormErrors :=
  match name with
  | k_email =>
      MkFormErrors e (password_error r) (confirmPassword_error r)
        (givenName_error r) (familyName_error r) (phoneNumber_error r)
  | k_password =>
      MkFormErrors (email_error r) e (confirmPassword_error r)
        (givenName_error r) (familyName_error r) (phoneNumber_error r)
  | k_confirmPassword =>
      MkFormErrors (email_error r) (password_error r) e (givenName_error r)
        (familyName_error r) (phoneNumber_error r)
  | k_givenName =>
      MkFormErrors (email_error r) (password_error r)
        (confirmPassword_error r) e (familyName_error r)
        (phoneNumber_error r)
  | k_familyName =>
      MkFormErrors (email_error r) (password_error r)
        (confirmPassword_error r) (givenName_error r) e
        (phoneNumber_error r)
  | k_phoneNumber =>
      MkFormErrors (email_error r) (password_error r)
        (confirmPassword_error r) (givenName_error r) (familyName_error r) e
  end.

Record PasswordStrength : Type := MkPasswordStrength {
  hasMinLength : bool;
  hasUpperCase : bool;
  hasLowerCase : bool;
  hasNumber : bool;
  hasSymbol : bool;
  score : nat
}.

(** The character class of the [hasSymbol] test, in the order written:
    the punctuation of a US keyboard except the tilde and the backquote
    (34 is the double quote, 39 the quote, 92 the backslash). *)
Definition symbols : list N :=
  [33; 64; 35; 36; 37; 94; 38; 42; 40; 41; 95; 43; 45; 61; 91; 93; 123;
   125; 59; 39; 58; 34; 92; 124; 44; 46; 60; 62; 47; 63]%N.

(** [checkPasswordStrength]. *)
Definition checkPasswordStrength (password : list N) : PasswordStrength :=
  let hasMinLength := (8 <=? length password)%nat in
  let hasUpperCase := Regex.test (Regex.Class (in_range 65 90)) password in
  let hasLowerCase := Regex.test (Regex.Class (in_range 97 122)) password in
  let hasNumber := Regex.test (Regex.Class (in_range 48 57)) password in
  let hasSymbol := Regex.test (Regex.Class (one_of symbols)) password in
  let score :=
    length (filter (fun b : bool => b = true)
              [hasMinLength; hasUpperCase; hasLowerCase; hasNumber;
               hasSymbol]) in
  MkPasswordStrength hasMinLength hasUpperCase hasLowerCase hasNumber
    hasSymbol score.

(** [[^\s@]]. *)
Definition notSpaceNorAt : Regex.t :=
  Regex.Class (fun c => negb (is_space c || (c =? 64)%N)).

(** [/^[^\s@]+@[^\s@]+\.[^\s@]+$/]. *)
Definition emailRegex : Regex.t :=
  Regex.Seq (Regex.Plus notSpaceNorAt)
    (Regex.Seq (Regex.Class (N.eqb 64))
       (Regex.Seq (Regex.Plus notSpaceNorAt)
          (Regex.Seq (Regex.Class (N.eqb 46)) (Regex.Plus notSpaceNorAt)))).

Definition digit : Regex.t := Regex.Class (in_range 48 57).

(** [/^(\+81|0)[0-9]{10,11}$/]. *)
Definition phoneRegex : Regex.t :=
  Regex.Seq (Regex.Alt (Regex.Lit [43; 56; 49]%N) (Regex.Lit [48]%N))
    (Regex.Seq (Regex.Repeat 10 digit) (Regex.Opt digit)).

(** [value.replace] of every hyphen and white space code unit (the
    global pattern [/[-\s]/g]) by the empty string. *)
Definition stripSeparators (value : list N) : list N :=
  List.filter (fun c => negb ((c =? 45)%N || is_space c)) value.

Definition isEmpty (value : list N) : bool :=
  match value with [] => true | _ => false end.

(** [validateField(name, value)]; [formData] is the state the closure
    sees.  [None] is [null]. *)
Definition validateField (formData : FormData) (name : Key) (value : list N)
  : option string :=
  match name with
  | k_email =>
      if isEmpty value then None
      else if Regex.test_whole emailRegex value then None
      else Some "有効なメールアドレスを入力してください"%string
  | k_password =>
      if isEmpty value then None
      else
        let strength := checkPasswordStrength value in
        if negb (hasMinLength strength) then
          Some "パスワードは8文字以上である必要があります"%string
        else if negb (hasUpperCase strength) then
          Some "大文字を含む必要があります"%string
        else if negb (hasLowerCase strength) then
          Some "小文字を含む必要があります"%string
        else if negb (hasNumber strength) then
          Some "数字を含む必要があります"%string
        else if negb (hasSymbol strength) then
          Some "記号を含む必要があります"%string
        else None
  | k_confirmPassword =>
      if isEmpty value then None
      else if bool_decide (value = password formData) then None
      else Some "パスワードが一致しません"%string
  | k_givenName =>
      if isEmpty value then None
      else if (1 <=? length (trim value))%nat then None
      else Some "名前を入力してください"%string
  | k_familyName =>
      if isEmpty value then None
      else if (1 <=? length (trim value))%nat then None
      else Some "姓を入力してください"%string
  | k_phoneNumber =>
      if isEmpty value then None
      else if Regex.test_whole phoneRegex (stripSeparators value) then None
      else Some "有効な日本の電話番号を入力してください（例: 090-1234-5678）"%string
  end.

(** [!value.trim()]. *)
Definition blank (value : list N) : bool := isEmpty (trim value).

(** One block of [validateForm] for a field that is required and
    validated: [errors] and [isValid] before and after. *)
Definition requiredAndValid (formData : FormData) (name : Key)
    (value : list N) (required : string) (acc : FormErrors * bool)
  : FormErrors * bool :=
  if blank value then (setError name (Some required) (fst acc), false)
  else
    match validateField formData name value with
    | Some fieldError => (setError name (Some fieldError) (fst acc), false)
    | None => acc
    end.

(** One block for a field that is only required. *)
Definition requiredOnly (name : Key) (value : list N) (required : string)
    (acc : FormErrors * bool) : FormErrors * bool :=
  if blank value then (setError name (Some required) (fst acc), false)
  else acc.

(** [validateForm]: the errors it passes to [setFormErrors] and the value
    it returns. *)
Definition validateForm (formData : FormData) : FormErrors * bool :=
  let acc0 := (noErrors, true) in
  let acc1 := requiredAndValid formData k_email (email formData)
                "メールアドレスは必須です" acc0 in
  let acc2 := requiredAndValid formData k_password (password formData)
                "パスワードは必須です" acc1 in
  let acc3 := requiredAndValid formData k_confirmPassword
                (confirmPassword formData) "パスワード確認は必須です" acc2 in
  let acc4 := requiredOnly k_givenName (givenName formData)
                "名前は必須です" acc3 in
  let acc5 := requiredOnly k_familyName (familyName formData)
                "姓は必須です" acc4 in
  requiredAndValid formData k_phoneNumber (phoneNumber formData)
    "電話番号は必須です" acc5.

Inductive Step : Type := register | confirm.

(** The state of the component. *)
Record State : Type := MkState {
  formData : FormData;
  error : option string;
  isLoading : bool;
  formErrors : FormErrors;
  step : Step
}.

(** [handleInputChange(name, value)].  [validateField] runs in the closure
    of the current render, so it sees [formData] as it was before this
    change. *)
Definition handleInputChange (name : Key) (value : list N) (st : State)
  : State :=
  let old := formData st in
  let fieldError := validateField old name value in
  let errors1 := setError name fieldError (formErrors st) in
  let errors2 :=
    match name with
    | k_password =>
        if negb (isEmpty (confirmPassword old)) then
          setError k_confirmPassword
            (validateField old k_confirmPassword (confirmPassword old))
            errors1
        else errors1
    | _ => errors1
    end in
  MkState (setField name value old) None (isLoading st) errors2 (step st).

(** [startsWith("+81") ? phoneNumber : phoneNumber.replace(/^0/, "+81")]. *)
Definition formatPhone (phoneNumber : list N) : list N :=
  match phoneNumber with
  | 43 :: 56 :: 49 :: _ => phoneNumber
  | 48 :: rest => [43; 56; 49] ++ rest
  | _ => phoneNumber
  end%N.

(** What [signUp] of the identity provider does: resolves, complete or
    not, or throws an error with a name. *)
Inductive SignUpOutcome : Type :=
  | SignUpResolves (isSignUpComplete : bool)
  | SignUpThrows (name : string).

(** The result object of [cognitoSignUp]. *)
Record SignUpResult : Type := MkSignUpResult {
  success : bool;
  message : option string;
  requiresConfirmation : bool
}.

(** [cognitoSignUp] of the authentication context. *)
Definition cognitoSignUp (o : SignUpOutcome) : SignUpResult :=
  match o with
  | SignUpResolves false =>
      MkSignUpResult true
        (Some "確認コードをメールに送信しました。メールを確認してアカウントを有効化してください。"%string)
        true
  | SignUpResolves true =>
      MkSignUpResult true (Some "アカウントが作成されました"%string) false
  | SignUpThrows name =>
      let message :=
        if String.eqb name "UsernameExistsException" then
          "このメールアドレスは既に登録されています"%string
        else if String.eqb name "InvalidPasswordException" then
          "パスワードが要件を満たしていません"%string
        else if String.eqb name "InvalidParameterException" then
          "入力内容に問題があります。すべての項目を正しく入力してください"%string
        else "アカウント作成に失敗しました"%string in
      MkSignUpResult false (Some message) false
  end.

(** What [handleSubmit] does to the outside. *)
Inductive Effect : Type :=
  | CallSignUp (email password givenName familyName phoneNumber : list N)
  | CallOnSuccess
  | RouterPush (path : string).

(** [handleSubmit]: [onSuccess] tells whether the prop was given, [o] is
    what [signUp] does if it gets called. *)
Definition handleSubmit (onSuccess : bool) (o : SignUpOutcome) (st : State)
  : State * list Effect :=
  let '(errors, isValid) := validateForm (formData st) in
  if negb isValid then
    (MkState (formData st)
       (Some "入力内容に問題があります。すべての項目を正しく入力してください。"%string)
       (isLoading st) errors (step st), [])
  else
    let d := formData st in
    let call :=
      CallSignUp (email d) (password d) (givenName d) (familyName d)
        (formatPhone (phoneNumber d)) in
    let result := cognitoSignUp o in
    if success result then
      if requiresConfirmation result then
        (MkState d None false errors confirm, [call])
      else
        (MkState d None false errors (step st),
         [call; if onSuccess then CallOnSuccess else RouterPush "/"])
    else
      (MkState d
         (Some (if truthy (message result) then default EmptyString (message result)
                else "アカウント作成に失敗しました"%string))
         false errors (step st), [call]).

End RegisterForm.

(** A hyphen or white space code unit, what [validateField] takes out of a
    phone number before it tests it. *)
Definition separator (c : N) : bool := (c =? 45)%N || is_space c.

(** The international form of a Japanese number: +81 and 10 or 11 digits. *)
Definition international (s : list N) : Prop :=
  exists ds : list N,
    s = [43; 56; 49]%N ++ ds
    /\ Forall (fun c => (48 <= c <= 57)%N) ds
    /\ (10 <= length ds <= 11)%nat.

(** The errors recorded and the flag returned by [validateForm] agree. *)
Definition errors_agree (acc : RegisterForm.FormErrors * bool) : Prop :=
  snd acc = true <-> fst acc = RegisterForm.noErrors.

(** * Theorems *)

(** ** The encoder *)

Example encode_one : encode_sample (JS.Num 1) = 32767.
Proof. reflexivity. Qed.

Example encode_minus_one : encode_sample (JS.Num (-1)) = -32767.
Proof. reflexivity. Qed.

Example encode_minus_two : encode_sample (JS.Num (-2)) = 2.
Proof. reflexivity. Qed.

Example encode_half : encode_sample (JS.Num (1 # 2)) = 16383.
Proof. reflexivity. Qed.

Example encode_buffer :
  AudioWorkletApp.convertFloat32ToInt16
    [JS.Num 1; JS.Num (-1); JS.Num (3 # 2); JS.NaN; JS.Num (-(3 # 2))]
  = [32767; -32767; 32767; 0; 16386].
Proof. reflexivity. Qed.

(** The loop writes the encoded samples over the buffer from left to
    right; both components share the argument, so it is a tactic. *)
Ltac loop_by_induction :=
  let n := fresh "n" in
  let IH := fresh "IH" in
  intros n; induction n as [|n IH]; intros i buffer buf Hn Hbuf; simpl;
  [ rewrite take_ge by lia; rewrite drop_ge by lia; simpl;
    now rewrite app_nil_r
  | destruct (lookup_lt_is_Some_2 buffer i ltac:(lia)) as [x Hx];
    rewrite Hx; simpl;
    rewrite IH by (rewrite ?length_insert; lia);
    rewrite (drop_S buffer x i Hx); simpl;
    erewrite take_S_r
      by (apply list_lookup_insert_eq; lia);
    rewrite take_insert_ge by lia;
    now rewrite <- app_assoc ].

Lemma worklet_loop_spec :
  forall n i buffer buf,
    (i + n = length buffer)%nat -> length buf = length buffer ->
    AudioWorkletApp.convert_loop n i buffer buf
    = take i buf ++ map encode_sample (drop i buffer).
Proof. loop_by_induction. Qed.

Lemma scriptprocessor_loop_spec :
  forall n i buffer buf,
    (i + n = length buffer)%nat -> length buf = length buffer ->
    ScriptProcessorApp.convert_loop n i buffer buf
    = take i buf ++ map encode_sample (drop i buffer).
Proof. loop_by_induction. Qed.

Lemma worklet_convert_map buffer :
  AudioWorkletApp.convertFloat32ToInt16 buffer = map encode_sample buffer.
Proof.
  unfold AudioWorkletApp.convertFloat32ToInt16.
  rewrite worklet_loop_spec by (rewrite ?length_replicate; lia).
  reflexivity.
Qed.

Lemma scriptprocessor_convert_map buffer :
  ScriptProcessorApp.convertFloat32ToInt16 buffer = map encode_sample buffer.
Proof.
  unfold ScriptProcessorApp.convertFloat32ToInt16.
  rewrite scriptprocessor_loop_spec by (rewrite ?length_replicate; lia).
  reflexivity.
Qed.

Lemma convert_map c buffer :
  convertFloat32ToInt16 c buffer = map encode_sample buffer.
Proof.
  destruct c; [apply worklet_convert_map | apply scriptprocessor_convert_map].
Qed.

Lemma wrap16_small z : -32768 <= z < 32768 -> JS.wrap16 z = z.
Proof.
  intros Hz. unfold JS.wrap16.
  destruct (Z_lt_le_dec z 0) as [Hneg|Hpos].
  - replace (z mod 65536) with (z + 65536).
    + destruct (32768 <=? z + 65536) eqn:E; [lia|].
      apply Z.leb_gt in E. lia.
    + symmetry. rewrite <- (Z_mod_plus_full z 1 65536).
      apply Z.mod_small. lia.
  - rewrite Z.mod_small by lia.
    destruct (32768 <=? z) eqn:E; [|reflexivity].
    apply Z.leb_le in E. lia.
Qed.

Lemma quot_scaled_bounds n d :
  0 < d -> - d <= n <= d -> -32767 <= Z.quot (n * 32767) d <= 32767.
Proof.
  intros Hd Hn.
  destruct (Z_lt_le_dec n 0) as [Hneg|Hpos].
  - replace (n * 32767) with (- ((- n) * 32767)) by lia.
    rewrite Z.quot_opp_l by lia.
    assert (0 <= Z.quot (- n * 32767) d <= 32767); [|lia].
    split.
    + apply Z.quot_pos; lia.
    + rewrite Z.quot_div_nonneg by lia.
      apply Z.div_le_upper_bound; nia.
  - split.
    + assert (0 <= Z.quot (n * 32767) d); [apply Z.quot_pos; lia | lia].
    + rewrite Z.quot_div_nonneg by lia.
      apply Z.div_le_upper_bound; nia.
Qed.

Lemma trunc_scaled_bounds q :
  (-1 <= q)%Q -> (q <= 1)%Q ->
  -32767 <= JS.trunc (q * inject_Z 32767) <= 32767.
Proof.
  destruct q as [n d]. unfold Qle, JS.trunc. simpl. intros Hlo Hhi.
  rewrite Pos.mul_1_r.
  apply quot_scaled_bounds; lia.
Qed.

Lemma encode_sample_in_range q :
  (-1 <= q)%Q -> (q <= 1)%Q ->
  encode_sample (JS.Num q)
  = JS.trunc (q * inject_Z 32767) \/ encode_sample (JS.Num q) = 32767.
Proof.
  intros Hlo Hhi. unfold encode_sample, JS.Math_min, JS.one. simpl.
  destruct (Qle_bool 1 q) eqn:E.
  - right. reflexivity.
  - left. simpl. apply wrap16_small.
    pose proof (trunc_scaled_bounds q Hlo Hhi). lia.
Qed.

(** C2 (as amended).  For every component, every buffer and every finite
    sample [q >= -1] in it, the encoder stores at the same index the value
    [min(1, q) * 0x7fff] truncated toward zero, with no wrap-around: a
    value between -32767 and 32767, equal to 32767 for every [q >= 1] and
    to -32767 for [q = -1]. *)
Theorem encoder_clamps_above_and_scales :
  forall (c : Component) (buffer : list JS.number) (i : nat) (q : Q),
    buffer !! i = Some (JS.Num q) ->
    (-1 <= q)%Q ->
    convertFloat32ToInt16 c buffer !! i
      = Some (JS.trunc (Qmin 1 q * inject_Z 0x7fff))
    /\ -32767 <= JS.trunc (Qmin 1 q * inject_Z 0x7fff) <= 32767
    /\ ((1 <= q)%Q -> JS.trunc (Qmin 1 q * inject_Z 0x7fff) = 32767)
    /\ ((q == -1)%Q -> JS.trunc (Qmin 1 q * inject_Z 0x7fff) = -32767).
Proof.
  intros c buffer i q Hi Hlo.
  rewrite convert_map, list_lookup_fmap, Hi. simpl.
  assert (Hmin : (1 <= q)%Q /\ Qmin 1 q = 1%Q /\ Qle_bool 1 q = true
                 \/ (q < 1)%Q /\ Qmin 1 q = q /\ Qle_bool 1 q = false).
  { destruct (Qlt_le_dec q 1) as [Hlt|Hge].
    - right. split; [exact Hlt|]. split.
      + unfold Qmin, GenericMinMax.gmin.
        destruct (Qcompare 1 q) eqn:E; try reflexivity.
        * apply Qeq_alt in E. rewrite <- E in Hlt.
          exfalso. exact (Qlt_irrefl _ Hlt).
        * apply Qlt_alt in E. exfalso.
          exact (Qlt_irrefl _ (Qlt_trans _ _ _ E Hlt)).
      + destruct (Qle_bool 1 q) eqn:E; [|reflexivity].
        apply Qle_bool_iff in E. exfalso.
        exact (Qlt_irrefl _ (Qle_lt_trans _ _ _ E Hlt)).
    - left. split; [exact Hge|]. split.
      + unfold Qmin, GenericMinMax.gmin.
        destruct (Qcompare 1 q) eqn:E; try reflexivity.
        apply Qgt_alt in E. exfalso.
        exact (Qlt_irrefl _ (Qle_lt_trans _ _ _ Hge E)).
      + apply Qle_bool_iff. exact Hge. }
  destruct Hmin as [(Hge & Hm & Hb)|(Hlt & Hm & Hb)]; rewrite Hm.
  - split; [|split; [|split]].
    + unfold encode_sample, JS.Math_min, JS.one. rewrite Hb. reflexivity.
    + vm_compute. split; discriminate.
    + reflexivity.
    + intros Heq. rewrite Heq in Hge. unfold Qle in Hge. simpl in Hge. lia.
  - assert (Hb' : -32767 <= JS.trunc (q * inject_Z 32767) <= 32767).
    { apply trunc_scaled_bounds; [exact Hlo | apply Qlt_le_weak, Hlt]. }
    split; [|split; [|split]].
    + unfold encode_sample, JS.Math_min, JS.one. rewrite Hb. simpl.
      f_equal. apply wrap16_small. lia.
    + exact Hb'.
    + intros Hge. exfalso.
      exact (Qlt_irrefl _ (Qle_lt_trans _ _ _ Hge Hlt)).
    + intros Heq. destruct q as [n d]. unfold Qeq in Heq. simpl in Heq.
      unfold JS.trunc. simpl. rewrite Pos.mul_1_r.
      replace n with (- Z.pos d) by lia.
      replace (- Z.pos d * 32767) with (- (32767 * Z.pos d)) by lia.
      rewrite Z.quot_opp_l by lia. rewrite Z.quot_mul by lia. reflexivity.
Qed.

Lemma encoder_clamps_above_and_scales_witness :
  convertFloat32ToInt16 AudioWorklet
    [JS.Num 1; JS.Num (-1); JS.Num (3 # 2)] !! 1%nat
    = Some (JS.trunc (Qmin 1 (-1) * inject_Z 0x7fff))
  /\ -32767 <= JS.trunc (Qmin 1 (-1) * inject_Z 0x7fff) <= 32767
  /\ ((1 <= -1)%Q -> JS.trunc (Qmin 1 (-1) * inject_Z 0x7fff) = 32767)
  /\ ((-1 == -1)%Q -> JS.trunc (Qmin 1 (-1) * inject_Z 0x7fff) = -32767).
Proof.
  apply (encoder_clamps_above_and_scales AudioWorklet
           [JS.Num 1; JS.Num (-1); JS.Num (3 # 2)] 1%nat (-1)%Q).
  - reflexivity.
  - vm_compute. discriminate.
Defined.

(** C2, as stated, fails: the sample -1.0 is encoded as -32767, not
    -32768, and the sample -2.0, which lies outside [-1, 1], is not
    clamped to -1.0 first but wraps around to 2. *)
Lemma encoder_lower_end_counterexample :
  AudioWorkletApp.convertFloat32ToInt16 [JS.Num (-1)] = [-32767]
  /\ AudioWorkletApp.convertFloat32ToInt16 [JS.Num (-1)] <> [-32768]
  /\ ScriptProcessorApp.convertFloat32ToInt16 [JS.Num (-1)] <> [-32768]
  /\ AudioWorkletApp.convertFloat32ToInt16 [JS.Num (-2)] = [2]
  /\ AudioWorkletApp.convertFloat32ToInt16 [JS.Num (-2)]
     <> AudioWorkletApp.convertFloat32ToInt16 [JS.Num (-1)].
Proof. repeat split; try reflexivity; vm_compute; discriminate. Qed.

(** C10.  The encoders of the two components agree on every input
    buffer. *)
Theorem encoders_agree :
  forall buffer : list JS.number,
    AudioWorkletApp.convertFloat32ToInt16 buffer
    = ScriptProcessorApp.convertFloat32ToInt16 buffer.
Proof.
  intros buffer.
  rewrite worklet_convert_map, scriptprocessor_convert_map. reflexivity.
Qed.

(** ** The close handler *)

Example close_1006_schedules_reconnect :
  timers (onclose (Some "T1"%string) 1006 init) = [(3000, Some "T1"%string)].
Proof. reflexivity. Qed.

Example explicit_close_1000_schedules_nothing :
  onclose (Some "T1"%string) 1000 (with_isExplicitlyClosing true init)
  = with_isExplicitlyClosing true init.
Proof. reflexivity. Qed.

(** C1.  The close handler adds one timer, [connectWebSocket] after
    3000 ms, exactly when [isExplicitlyClosing] is false and the code is
    none of 1000, 1001, 4001; in every other case the pending timers are
    left as they were, and a close with code 4001 that is not explicit
    shows the authentication error toast. *)
Theorem onclose_reconnects_iff :
  forall (tok : option string) (code : Z) (s : App),
    (timers (onclose tok code s) = timers s ++ [(3000, tok)]
     <-> isExplicitlyClosing s = false
         /\ code <> 1000 /\ code <> 1001 /\ code <> 4001)
    /\ (timers (onclose tok code s) = timers s ++ [(3000, tok)]
        \/ timers (onclose tok code s) = timers s)
    /\ (isExplicitlyClosing s = false /\ code = 4001 ->
        exists t, log (onclose tok code s)
                  = log s ++ [SetConnectionStatus disconnected;
                              ShowToast t; ConsoleError]).
Proof.
  intros tok code s.
  assert (Hne : forall l : list (Z * option string), l <> l ++ [(3000, tok)]).
  { intros l H. apply (f_equal length) in H.
    rewrite length_app in H. simpl in H. lia. }
  unfold onclose.
  destruct (isExplicitlyClosing s) eqn:Hex.
  - split; [split|split].
    + intros H. exfalso. exact (Hne _ H).
    + intros [H _]. discriminate.
    + right. reflexivity.
    + intros [H _]. discriminate.
  - destruct (code =? 4001) eqn:E1; simpl.
    + apply Z.eqb_eq in E1. split; [split|split].
      * intros H. exfalso. exact (Hne _ H).
      * intros (_ & _ & _ & H). contradiction.
      * right. reflexivity.
      * intros _. eexists. rewrite <- !app_assoc. reflexivity.
    + apply Z.eqb_neq in E1.
      destruct (code =? 1000) eqn:E2; simpl.
      * apply Z.eqb_eq in E2. split; [split|split].
        -- intros H. exfalso. exact (Hne _ H).
        -- intros (_ & H & _). contradiction.
        -- right. reflexivity.
        -- intros [_ H]. contradiction.
      * apply Z.eqb_neq in E2.
        destruct (code =? 1001) eqn:E3; simpl.
        -- apply Z.eqb_eq in E3. split; [split|split].
           ++ intros H. exfalso. exact (Hne _ H).
           ++ intros (_ & _ & H & _). contradiction.
           ++ right. reflexivity.
           ++ intros [_ H]. contradiction.
        -- apply Z.eqb_neq in E3. split; [split|split].
           ++ intros _. repeat split; assumption.
           ++ intros _. reflexivity.
           ++ left. reflexivity.
           ++ intros [_ H]. contradiction.
Qed.

(** ** Inbound messages *)

Example hello_scenario :
  let s := run AudioWorklet
             [ TokenChanged (Some "T1"%string); WsOpen 0;
               AuthSessionSettled (SessionTokens (Some "T1"%string));
               WsMessage 0 (Json "transcription" "hello" EmptyString) ]
             init in
  allTranscript s = " hello"%string
  /\ sent_on 0 (log s) = [AuthMsg "T1"].
Proof. split; reflexivity. Qed.

(** C7.  A message of type "transcription" with text [t] makes the full
    transcript the previous one, a space, and [t], and changes nothing
    else; from the empty transcript, text "hello" gives " hello". *)
Theorem transcription_appends_with_space :
  forall (t message : string) (s : App),
    onmessage (Json "transcription" t message) s
    = with_allTranscript (allTranscript s ++ " " ++ t)%string s
    /\ allTranscript (onmessage (Json "transcription" t message) s)
       = (allTranscript s ++ " " ++ t)%string
    /\ allTranscript (onmessage (Json "transcription" "hello" message) init)
       = " hello"%string.
Proof. intros t message s. repeat split. Qed.

Lemma onmessage_not_immediate data s :
  is_immediate data = false -> immediate (onmessage data s) = immediate s.
Proof.
  destruct data as [|type text message]; simpl; [reflexivity|].
  intros H. rewrite H.
  destruct (String.eqb type "error" && String.eqb message "認証失敗");
    [reflexivity|].
  destruct (String.eqb type "transcription"); [reflexivity|].
  destruct (String.eqb type "minutes"); [reflexivity|].
  destruct (String.eqb type "error"); reflexivity.
Qed.

Lemma onmessage_immediate t message s :
  onmessage (Json "immediate" t message) s = with_immediate t s.
Proof. reflexivity. Qed.

Lemma deliver_app l1 l2 s : deliver (l1 ++ l2) s = deliver l2 (deliver l1 s).
Proof. unfold deliver. apply fold_left_app. Qed.

Lemma deliver_not_immediate msgs :
  forall s, forallb (fun d => negb (is_immediate d)) msgs = true ->
            immediate (deliver msgs s) = immediate s.
Proof.
  induction msgs as [|d msgs IH]; intros s H; [reflexivity|].
  simpl in H. apply andb_true_iff in H. destruct H as [Hd Hrest].
  change (deliver (d :: msgs) s) with (deliver msgs (onmessage d s)).
  rewrite IH by exact Hrest.
  apply onmessage_not_immediate. now apply negb_true_iff.
Qed.

(** C8.  After any sequence of inbound messages, the immediate field is
    the text of the most recent message of type "immediate": whatever came
    before it is overwritten, and messages of other types after it leave
    the field alone. *)
Theorem immediate_is_latest :
  forall (before after : list Inbound) (t message : string) (s : App),
    forallb (fun d => negb (is_immediate d)) after = true ->
    immediate (deliver (before ++ Json "immediate" t message :: after) s) = t.
Proof.
  intros before after t message s Hafter.
  rewrite deliver_app.
  change (deliver (Json "immediate" t message :: after) (deliver before s))
    with (deliver after
            (onmessage (Json "immediate" t message) (deliver before s))).
  rewrite deliver_not_immediate by exact Hafter.
  reflexivity.
Qed.

Lemma immediate_is_latest_witness :
  forallb (fun d => negb (is_immediate d)) [] = true
  /\ immediate
       (deliver ([Json "immediate" "a" EmptyString]
                 ++ Json "immediate" "ab" EmptyString :: []) init)
     = "ab"%string.
Proof.
  split; [reflexivity|].
  apply (immediate_is_latest [Json "immediate" "a" EmptyString] []
           "ab" EmptyString init).
  reflexivity.
Defined.

(** ** The start gate *)

Lemma device_requests_app l1 l2 :
  device_requests (l1 ++ l2) = (device_requests l1 + device_requests l2)%nat.
Proof. unfold device_requests. now rewrite filter_app, length_app. Qed.

Lemma device_requests_toast t : device_requests [ShowToast t] = 0%nat.
Proof.
  unfold device_requests. rewrite filter_cons_False by discriminate.
  reflexivity.
Qed.

Example older_component_has_no_balance_gate :
  let s := with_balance (Some 0) (with_connectionStatus connected init) in
  log (ScriptProcessorApp.startRecording MediaGranted s) = [GetUserMedia].
Proof. vm_compute. reflexivity. Qed.

Example start_with_zero_balance :
  let s := with_balance (Some 0) (with_connectionStatus connected init) in
  AudioWorkletApp.startRecording MediaGranted s = toast toastNoBalance s
  /\ device_requests (log (AudioWorkletApp.startRecording MediaGranted s)) = 0%nat.
Proof. split; vm_compute; reflexivity. Qed.

(** C5, as stated, fails: with the connection up and the balance not yet
    loaded (the [null] the state starts with, which is not a balance
    greater than 0), the start is accepted and the device is requested. *)
Lemma start_with_unloaded_balance_counterexample :
  let s := run AudioWorklet
             [ TokenChanged (Some "T1"%string); WsOpen 0;
               AuthSessionSettled (SessionTokens (Some "T1"%string)) ]
             init in
  balance s = None
  /\ ~ (exists b, balance s = Some b /\ 0 < b)
  /\ connectionStatus s = connected
  /\ log (AudioWorkletApp.startRecording MediaGranted s)
     = log s ++ [GetUserMedia]
  /\ device_requests (log (step AudioWorklet s (ClickStart MediaGranted)))
     = 1%nat
  /\ isRecording (step AudioWorklet s (ClickStart MediaGranted)) = true.
Proof.
  split; [reflexivity|].
  split; [intros [b [H _]]; discriminate H|].
  split; [vm_compute; reflexivity|].
  split; [vm_compute; reflexivity|].
  split; vm_compute; reflexivity.
Qed.

(** C5 (as amended).  When the connection status is not "connected", or
    the balance has been loaded and is not greater than 0, [startRecording]
    only shows an error toast (the connection error in the first case,
    else the insufficient-balance error) and returns: the state is
    otherwise unchanged and no device-access request is made. *)
Theorem start_rejected_before_device_access :
  forall (media : MediaResult) (s : App),
    connectionStatus s <> connected
    \/ (exists b, balance s = Some b /\ b <= 0) ->
    exists t,
      AudioWorkletApp.startRecording media s = toast t s
      /\ (connectionStatus s <> connected -> t = toastNotConnected)
      /\ (connectionStatus s = connected -> t = toastNoBalance)
      /\ device_requests (log (AudioWorkletApp.startRecording media s))
         = device_requests (log s)
      /\ isRecording (AudioWorkletApp.startRecording media s) = isRecording s.
Proof.
  intros media s H. unfold AudioWorkletApp.startRecording.
  destruct (decide (connectionStatus s = connected)) as [Hc|Hc].
  - rewrite bool_decide_eq_true_2 by exact Hc. simpl.
    destruct H as [H|[b [Hb Hle]]]; [contradiction|].
    rewrite Hb. apply Z.leb_le in Hle. rewrite Hle.
    exists toastNoBalance. repeat split; try contradiction.
    simpl. rewrite device_requests_app, device_requests_toast. lia.
  - rewrite bool_decide_eq_false_2 by exact Hc. simpl.
    exists toastNotConnected. repeat split; try contradiction.
    simpl. rewrite device_requests_app, device_requests_toast. lia.
Qed.

Lemma start_rejected_before_device_access_witness :
  exists t,
    AudioWorkletApp.startRecording MediaGranted
      (with_balance (Some 0) (with_connectionStatus connected init))
    = toast t (with_balance (Some 0) (with_connectionStatus connected init))
    /\ (connectionStatus
          (with_balance (Some 0) (with_connectionStatus connected init))
        <> connected -> t = toastNotConnected)
    /\ (connectionStatus
          (with_balance (Some 0) (with_connectionStatus connected init))
        = connected -> t = toastNoBalance)
    /\ device_requests
         (log (AudioWorkletApp.startRecording MediaGranted
                 (with_balance (Some 0)
                    (with_connectionStatus connected init))))
       = device_requests
           (log (with_balance (Some 0)
                   (with_connectionStatus connected init)))
    /\ isRecording
         (AudioWorkletApp.startRecording MediaGranted
            (with_balance (Some 0) (with_connectionStatus connected init)))
       = isRecording
           (with_balance (Some 0) (with_connectionStatus connected init)).
Proof.
  apply (start_rejected_before_device_access MediaGranted
           (with_balance (Some 0) (with_connectionStatus connected init))).
  right. exists 0. split; [reflexivity | lia].
Defined.

(** ** Summary generation *)

(** C9.  With a credential at hand: the generate button does nothing
    while the full transcript is empty; a successful response replaces the
    summary by the returned text and then triggers the profile refresh; a
    failed request or response ends in an error toast and leaves the
    summary as it was; the full transcript is never touched. *)
Theorem generate_minutes_outcomes :
  forall (resp : MinutesResponse) (s : App),
    truthy (token s) = true ->
    (allTranscript s = EmptyString -> onClickGenerate resp s = s)
    /\ allTranscript (generateMinutes resp s) = allTranscript s
    /\ match resp with
       | ResponseOk m =>
           minutes (generateMinutes resp s) = m
           /\ log (generateMinutes resp s)
              = log s ++ [ PostGenerateMinutes (allTranscript s);
                           FetchProfile;
                           ShowToast (MkToast "成功" "議事録が生成されました。"
                                        false) ]
       | FetchRejected | ResponseNotOk | BodyNotJson =>
           minutes (generateMinutes resp s) = minutes s
           /\ forget_log (generateMinutes resp s) = forget_log s
           /\ log (generateMinutes resp s)
              = log s ++ [ PostGenerateMinutes (allTranscript s);
                           ConsoleError;
                           ShowToast (MkToast "エラー"
                                        "議事録の生成に失敗しました。" true) ]
       end.
Proof.
  intros resp s Htok. split; [|split].
  - intros Hempty. unfold onClickGenerate, generateDisabled.
    rewrite Hempty. reflexivity.
  - unfold generateMinutes. rewrite Htok. simpl.
    destruct resp; simpl; try reflexivity.
    unfold fetchProfile. simpl. rewrite Htok. reflexivity.
  - unfold generateMinutes. rewrite Htok. simpl.
    destruct resp; simpl;
      try (split; [reflexivity | split; [reflexivity|]];
           rewrite <- !app_assoc; reflexivity).
    unfold fetchProfile. simpl. rewrite Htok. simpl.
    split; [reflexivity|]. rewrite <- !app_assoc. reflexivity.
Qed.

Lemma generate_minutes_outcomes_witness :
  truthy (token (with_token (Some "T1"%string)
                   (with_minutes "old" (with_allTranscript " hello" init))))
  = true
  /\ minutes (generateMinutes ResponseNotOk
                (with_token (Some "T1"%string)
                   (with_minutes "old" (with_allTranscript " hello" init))))
     = "old"%string.
Proof.
  split; [reflexivity|].
  exact (proj1 (proj2 (proj2
    (generate_minutes_outcomes ResponseNotOk
       (with_token (Some "T1"%string)
          (with_minutes "old" (with_allTranscript " hello" init)))
       eq_refl)))).
Defined.

(** ** The chunk callbacks *)

Lemma below_one_percent_lt rnd :
  ScriptProcessorApp.below_one_percent rnd = true -> (rnd < 1 # 100)%Q.
Proof.
  unfold ScriptProcessorApp.below_one_percent. intros H.
  apply negb_true_iff in H.
  destruct (Qlt_le_dec rnd (1 # 100)) as [Hlt|Hge]; [exact Hlt|].
  apply Qle_bool_iff in Hge. congruence.
Qed.

(** C3 (as amended).  A chunk callback never throws and changes nothing
    but the log.  If a socket is held and its [readyState] is OPEN, the
    encoded chunk is transmitted on it; otherwise the chunk is dropped, and
    the only possible trace of the drop is one console warning, made by
    the older component alone and only when its random draw is below
    0.01. *)
Theorem chunk_sent_iff_socket_open :
  forall (c : Component) (data : list JS.number) (rnd : Q) (s : App),
    exists s',
      onchunk c data rnd s = Some s'
      /\ forget_log s' = forget_log s
      /\ ((exists g,
             globalWebSocket s = Some g
             /\ readyState_of g s = Some OPEN
             /\ log s' = log s
                         ++ [Send g (AudioFrame (convertFloat32ToInt16 c data))])
          \/ (~ (exists g, globalWebSocket s = Some g
                           /\ readyState_of g s = Some OPEN)
              /\ (log s' = log s
                  \/ (c = ScriptProcessor
                      /\ (rnd < 1 # 100)%Q
                      /\ log s' = log s ++ [ConsoleWarn])))).
Proof.
  intros c data rnd s.
  assert (Hno : forall g r,
             globalWebSocket s = Some g -> readyState_of g s = r ->
             r <> Some OPEN ->
             ~ (exists g', globalWebSocket s = Some g'
                           /\ readyState_of g' s = Some OPEN)).
  { intros g r Hg Hr Hne [g' [Hg' Ho]]. congruence. }
  assert (Hnone : globalWebSocket s = None ->
                  ~ (exists g', globalWebSocket s = Some g'
                                /\ readyState_of g' s = Some OPEN)).
  { intros Hg [g' [Hg' _]]. congruence. }
  destruct c; simpl.
  - unfold AudioWorkletApp.port_onmessage.
    destruct (globalWebSocket s) as [g|] eqn:Hg.
    + destruct (readyState_of g s) as [[| | |]|] eqn:Hr;
        try (exists s; split; [reflexivity|]; split; [reflexivity|];
             right; split; [eapply Hno; eauto; discriminate | left; reflexivity]).
      unfold ws_send. rewrite Hr. eexists. split; [reflexivity|].
      split; [reflexivity|]. left. exists g.
      split; [reflexivity|]. split; [exact Hr | reflexivity].
    + exists s. split; [reflexivity|]. split; [reflexivity|].
      right. split; [apply Hnone; reflexivity | left; reflexivity].
  - unfold ScriptProcessorApp.onaudioprocess.
    destruct (globalWebSocket s) as [g|] eqn:Hg.
    + destruct (readyState_of g s) as [[| | |]|] eqn:Hr;
        try (destruct (ScriptProcessorApp.below_one_percent rnd) eqn:Hrnd;
             eexists; (split; [reflexivity|]); (split; [reflexivity|]);
             right; (split; [eapply Hno; eauto; discriminate|]);
             [ right; repeat split; now apply below_one_percent_lt
             | left; reflexivity ]).
      unfold ws_send. rewrite Hr. eexists. split; [reflexivity|].
      split; [reflexivity|]. left. exists g.
      split; [reflexivity|]. split; [exact Hr | reflexivity].
    + destruct (ScriptProcessorApp.below_one_percent rnd) eqn:Hrnd;
        eexists; (split; [reflexivity|]); (split; [reflexivity|]);
        right; (split; [apply Hnone; reflexivity|]);
        [ right; repeat split; now apply below_one_percent_lt
        | left; reflexivity ].
Qed.

(** C3, as stated, fails: after a reconnection while capture runs, a chunk
    that arrives while the connection status is still "connecting" (the
    new socket is OPEN, its credential fetch pending) is transmitted. *)
Lemma chunk_sent_while_connecting_counterexample :
  let before := run AudioWorklet (removelast reconnect_while_recording) init in
  let after := run AudioWorklet reconnect_while_recording init in
  connectionStatus before = connecting
  /\ connectionStatus before <> connected
  /\ log after = log before ++ [Send 1 (AudioFrame [16383])].
Proof.
  split; [vm_compute; reflexivity|].
  split; [vm_compute; discriminate|].
  vm_compute; reflexivity.
Qed.

(** ** Frame lemmas: what a handler leaves alone *)

Lemma sent_on_app h l1 l2 :
  sent_on h (l1 ++ l2) = sent_on h l1 ++ sent_on h l2.
Proof. apply omap_app. Qed.

Lemma quiet_refl s : quiet s s.
Proof. repeat split. Qed.

Lemma quiet_trans s1 s2 s3 : quiet s1 s2 -> quiet s2 s3 -> quiet s1 s3.
Proof.
  intros (A1 & B1 & C1 & D1) (A2 & B2 & C2 & D2).
  split; [congruence|]. split; [congruence|]. split; [congruence|].
  intros h. rewrite D2. apply D1.
Qed.

(** Closes [quiet s (f s)] once [f] is unfolded down to record updates and
    every branch is decided. *)
Ltac quiet_by_computation :=
  repeat split; simpl; try reflexivity;
  intros; rewrite ?sent_on_app; simpl; rewrite ?app_nil_r; reflexivity.

Lemma quiet_onmessage data s : quiet s (onmessage data s).
Proof.
  unfold onmessage, toast, emit.
  destruct data as [|type text message]; [quiet_by_computation|].
  destruct (String.eqb type "error" && String.eqb message "認証失敗");
    [quiet_by_computation|].
  destruct (String.eqb type "transcription"); [quiet_by_computation|].
  destruct (String.eqb type "immediate"); [quiet_by_computation|].
  destruct (String.eqb type "minutes"); [quiet_by_computation|].
  destruct (String.eqb type "error"); quiet_by_computation.
Qed.

Lemma quiet_onerror s : quiet s (onerror s).
Proof.
  unfold onerror, setConnectionStatus, emit.
  destruct (isExplicitlyClosing s); quiet_by_computation.
Qed.

Lemma quiet_onclose tok code s : quiet s (onclose tok code s).
Proof.
  unfold onclose, setConnectionStatus, toast, emit.
  destruct (isExplicitlyClosing s); [quiet_by_computation|].
  destruct (code =? 4001); [quiet_by_computation|].
  destruct (negb (code =? 1000) && negb (code =? 1001));
    quiet_by_computation.
Qed.

Lemma quiet_startRecording c media s : quiet s (startRecording c media s).
Proof.
  destruct c; simpl;
    unfold AudioWorkletApp.startRecording, ScriptProcessorApp.startRecording,
      toast, emit;
    destruct (negb (bool_decide (connectionStatus s = connected)));
    try quiet_by_computation.
  - destruct (balance s) as [b|]; [destruct (b <=? 0)|];
      try quiet_by_computation; destruct media; quiet_by_computation.
  - destruct media; quiet_by_computation.
Qed.

Lemma quiet_stopRecording s : quiet s (stopRecording s).
Proof. unfold stopRecording. quiet_by_computation. Qed.

Lemma quiet_onClickGenerate resp s : quiet s (onClickGenerate resp s).
Proof.
  unfold onClickGenerate, generateMinutes, fetchProfile, toast, emit.
  destruct (generateDisabled s); [quiet_by_computation|].
  destruct (truthy (token s)) eqn:Htok; simpl; [|quiet_by_computation].
  destruct resp; simpl; rewrite ?Htok; quiet_by_computation.
Qed.

Lemma readyState_of_set h r s h' :
  readyState_of h' (set_readyState h r s)
  = if decide (h = h') then (fun _ => r) <$> readyState_of h' s
    else readyState_of h' s.
Proof.
  unfold readyState_of, set_readyState. simpl.
  rewrite list_lookup_alter.
  destruct (decide (h = h')) as [->|]; [|reflexivity].
  destruct (sockets s !! h'); reflexivity.
Qed.

Lemma readyState_of_quiet s s' h :
  quiet s s' -> readyState_of h s' = readyState_of h s.
Proof. intros (A & _). unfold readyState_of. now rewrite A. Qed.

(** ** At most one live socket *)

Lemma one_live_quiet s s' : quiet s s' -> one_live s -> one_live s'.
Proof.
  intros Hq Hs h r Hr Hl. destruct Hq as (A & B & _).
  rewrite B. apply (Hs h r); [|exact Hl].
  unfold readyState_of in *. now rewrite <- A.
Qed.

Lemma one_live_set h r s :
  (live r = true -> globalWebSocket s = Some h) ->
  one_live s -> one_live (set_readyState h r s).
Proof.
  intros Hr Hs h' r' Hr' Hl.
  rewrite readyState_of_set in Hr'. simpl.
  destruct (decide (h = h')) as [->|Hne].
  - destruct (readyState_of h' s); simpl in Hr'; [|discriminate].
    injection Hr' as <-. auto.
  - eauto.
Qed.

Lemma one_live_close g s : one_live s -> one_live (ws_close g s).
Proof.
  intros Hs. unfold ws_close.
  destruct (readyState_of g s) as [[| | |]|]; try exact Hs;
    apply one_live_set; auto; discriminate.
Qed.

Lemma ws_close_not_live g s r :
  readyState_of g (ws_close g s) = Some r -> live r = false.
Proof.
  unfold ws_close.
  destruct (readyState_of g s) as [[| | |]|] eqn:E;
    rewrite ?readyState_of_set, ?E; simpl;
    try (destruct (decide (g = g)); [|congruence]; simpl);
    intros H; inversion H; reflexivity.
Qed.

Lemma ws_close_other g s h :
  h <> g -> readyState_of h (ws_close g s) = readyState_of h s.
Proof.
  intros Hne. unfold ws_close.
  destruct (readyState_of g s) as [[| | |]|]; try reflexivity;
    rewrite readyState_of_set; destruct (decide (g = h)); congruence.
Qed.

Lemma ws_close_global g s :
  globalWebSocket (ws_close g s) = globalWebSocket s.
Proof.
  unfold ws_close. destruct (readyState_of g s) as [[| | |]|]; reflexivity.
Qed.

(** Closing the held socket and dropping the handle leaves no live socket
    behind. *)
Lemma one_live_release g s :
  one_live s -> globalWebSocket s = Some g ->
  one_live (with_globalWebSocket None (ws_close g s)).
Proof.
  intros Hs Hg h r Hr Hl. exfalso.
  change (readyState_of h (with_globalWebSocket None (ws_close g s)))
    with (readyState_of h (ws_close g s)) in Hr.
  destruct (decide (h = g)) as [->|Hne].
  - apply ws_close_not_live in Hr. congruence.
  - rewrite ws_close_other in Hr by exact Hne.
    specialize (Hs h r Hr Hl). congruence.
Qed.

Lemma not_busy_no_live s :
  one_live s -> socket_busy s = false ->
  forall h r, readyState_of h s = Some r -> live r = false.
Proof.
  intros Hs Hb h r Hr. destruct (live r) eqn:Hl; [|reflexivity].
  specialize (Hs h r Hr Hl). unfold socket_busy in Hb.
  rewrite Hs, Hr in Hb. destruct r; discriminate.
Qed.

Lemma connect_new tok s :
  socket_busy s = false -> truthy tok = true ->
  sockets (connectWebSocket tok s) = sockets s ++ [MkSocket CONNECTING tok]
  /\ globalWebSocket (connectWebSocket tok s) = Some (length (sockets s))
  /\ pendingOpens (connectWebSocket tok s) = pendingOpens s
  /\ log (connectWebSocket tok s) = log s ++ [SetConnectionStatus connecting].
Proof.
  intros Hb Ht. unfold connectWebSocket. rewrite Hb, Ht. simpl.
  repeat split.
Qed.

Lemma one_live_connect tok s : one_live s -> one_live (connectWebSocket tok s).
Proof.
  intros Hs.
  destruct (socket_busy s) eqn:Hb.
  { unfold connectWebSocket. now rewrite Hb. }
  destruct (truthy tok) eqn:Ht.
  2:{ unfold connectWebSocket. now rewrite Hb, Ht. }
  destruct (connect_new tok s Hb Ht) as (A & B & _).
  intros h r Hr Hl. rewrite B. f_equal.
  unfold readyState_of in Hr. rewrite A in Hr.
  destruct (decide (h < length (sockets s))%nat) as [Hlt|Hge].
  - rewrite lookup_app_l in Hr by exact Hlt.
    pose proof (not_busy_no_live s Hs Hb h r Hr). congruence.
  - destruct (decide (h = length (sockets s))) as [->|Hne]; [reflexivity|].
    rewrite lookup_ge_None_2 in Hr; [discriminate|].
    rewrite length_app. simpl. lia.
Qed.

Lemma one_live_ext s s' :
  sockets s' = sockets s -> globalWebSocket s' = globalWebSocket s ->
  one_live s -> one_live s'.
Proof.
  intros A B Hs h r Hr Hl. rewrite B. apply (Hs h r); [|exact Hl].
  unfold readyState_of in *. now rewrite <- A.
Qed.

Lemma ws_send_frame h m s s' :
  ws_send h m s = Some s' ->
  sockets s' = sockets s /\ globalWebSocket s' = globalWebSocket s
  /\ pendingOpens s' = pendingOpens s
  /\ (log s' = log s
      \/ readyState_of h s = Some OPEN /\ log s' = log s ++ [Send h m]).
Proof.
  unfold ws_send.
  destruct (readyState_of h s) as [[| | |]|]; intros H; inversion H; subst;
    simpl; auto 10.
Qed.

Lemma onopen_resume_frame r s :
  sockets (onopen_resume r s) = sockets s
  /\ globalWebSocket (onopen_resume r s) = globalWebSocket s
  /\ pendingOpens (onopen_resume r s) = pendingOpens s.
Proof.
  unfold onopen_resume, setConnectionStatus, emit.
  destruct r as [|[t|]]; simpl; auto.
  - destruct (globalWebSocket s) as [g|] eqn:Hg; simpl; auto.
    destruct (negb (String.eqb t EmptyString)); simpl; auto.
    destruct (ws_send g (AuthMsg t) s) as [s'|] eqn:E; simpl; auto.
    apply ws_send_frame in E. destruct E as (A & B & C & _).
    rewrite <- Hg. auto.
  - destruct (globalWebSocket s) eqn:Hg; simpl; rewrite ?Hg; auto.
Qed.

Lemma onchunk_frame c data rnd s s' :
  onchunk c data rnd s = Some s' ->
  sockets s' = sockets s /\ globalWebSocket s' = globalWebSocket s
  /\ pendingOpens s' = pendingOpens s.
Proof.
  destruct c; simpl;
    unfold AudioWorkletApp.port_onmessage, ScriptProcessorApp.onaudioprocess;
    destruct (globalWebSocket s) as [g|] eqn:Hg;
    try destruct (readyState_of g s) as [[| | |]|] eqn:Hr;
    try destruct (ScriptProcessorApp.below_one_percent rnd);
    intros H;
    try (inversion H; subst; simpl; repeat split; congruence);
    apply ws_send_frame in H; destruct H as (A & B & C & _);
    repeat split; congruence.
Qed.

Lemma one_live_tokenEffect s : one_live s -> one_live (tokenEffect s).
Proof.
  intros Hs. unfold tokenEffect.
  destruct (truthy (token s)); [apply one_live_connect, Hs|].
  eapply one_live_ext with
    (s := match globalWebSocket s with
          | Some g => with_globalWebSocket None
                        (ws_close g (with_isExplicitlyClosing true s))
          | None => s
          end); [reflexivity | reflexivity |].
  destruct (globalWebSocket s) as [g|] eqn:Hg; [|exact Hs].
  apply one_live_release; [|exact Hg].
  eapply one_live_ext; [| |exact Hs]; reflexivity.
Qed.

Lemma one_live_logout s : one_live s -> one_live (onClickLogout s).
Proof.
  intros Hs. unfold onClickLogout.
  set (s1 := with_isExplicitlyClosing true s).
  assert (H1 : one_live s1) by (eapply one_live_ext; [| |exact Hs]; reflexivity).
  assert (H3 : one_live
                 (with_globalWebSocket None
                    match globalWebSocket s1 with
                    | Some g => ws_close g s1
                    | None => s1
                    end)).
  { destruct (globalWebSocket s1) as [g|] eqn:Hg.
    - apply one_live_release; assumption.
    - intros h r Hr Hl. specialize (H1 h r Hr Hl). congruence. }
  match goal with |- one_live (if ?b then _ else _) => destruct b end;
    [|exact H3].
  eapply one_live_quiet; [apply quiet_stopRecording | exact H3].
Qed.

Lemma one_live_step c s e : one_live s -> one_live (step c s e).
Proof.
  intros Hs. destruct e; simpl.
  - apply one_live_tokenEffect.
    eapply one_live_ext; [| |exact Hs]; reflexivity.
  - eapply one_live_ext; [| |exact Hs]; reflexivity.
  - destruct (timers s) as [|[d tok] rest]; [exact Hs|].
    apply one_live_connect.
    eapply one_live_ext; [| |exact Hs]; reflexivity.
  - destruct (readyState_of h s) as [[| | |]|] eqn:Hr; try exact Hs.
    eapply one_live_ext with (s := set_readyState h OPEN s);
      [reflexivity | reflexivity |].
    apply one_live_set; [|exact Hs].
    intros _. apply (Hs h CONNECTING Hr). reflexivity.
  - destruct (pendingOpens s) as [|n]; [exact Hs|].
    destruct (onopen_resume_frame r (with_pendingOpens n s)) as (A & B & _).
    eapply one_live_ext; [exact A | exact B |].
    eapply one_live_ext; [| |exact Hs]; reflexivity.
  - destruct (readyState_of h s) as [[| | |]|]; try exact Hs.
    eapply one_live_quiet; [apply quiet_onmessage | exact Hs].
  - destruct (readyState_of h s) as [[| | |]|]; try exact Hs;
      (eapply one_live_quiet; [apply quiet_onerror | exact Hs]).
  - destruct (sockets s !! h) as [ws|]; [|exact Hs].
    destruct (readyState ws); try exact Hs;
      (eapply one_live_quiet; [apply quiet_onclose|];
       apply one_live_set; [discriminate | exact Hs]).
  - destruct (isRecording s); [exact Hs|].
    destruct (negb (bool_decide (connectionStatus s = connected)));
      [exact Hs|].
    eapply one_live_quiet; [apply quiet_startRecording | exact Hs].
  - destruct (isRecording s); [|exact Hs].
    eapply one_live_quiet; [apply quiet_stopRecording | exact Hs].
  - eapply one_live_quiet; [apply quiet_onClickGenerate | exact Hs].
  - apply one_live_logout, Hs.
  - destruct (processorLive s); [|exact Hs].
    destruct (onchunk c data rnd s) as [s'|] eqn:E; [|exact Hs].
    simpl. apply onchunk_frame in E. destruct E as (A & B & _).
    eapply one_live_ext; [exact A | exact B | exact Hs].
Qed.

Lemma one_live_run c tr : forall s, one_live s -> one_live (run c tr s).
Proof.
  induction tr as [|e tr IH]; intros s Hs; [exact Hs|].
  simpl. apply IH, one_live_step, Hs.
Qed.

Lemma one_live_init : one_live init.
Proof. intros h r Hr. unfold readyState_of in Hr. discriminate. Qed.


Lemma connect_busy tok s : socket_busy s = true -> connectWebSocket tok s = s.
Proof. intros Hb. unfold connectWebSocket. now rewrite Hb. Qed.

Lemma connect_no_credential tok s :
  truthy tok = false -> connectWebSocket tok s = s.
Proof.
  intros Ht. unfold connectWebSocket. rewrite Ht.
  now destruct (socket_busy s).
Qed.

Example connect_twice_one_handle :
  let s := connectWebSocket (Some "T1"%string)
             (connectWebSocket (Some "T1"%string)
                (with_token (Some "T1"%string) init)) in
  length (sockets s) = 1%nat /\ live_handles s = [0%nat].
Proof. split; vm_compute; reflexivity. Qed.

(** ** The auth message comes first *)

Lemma auth_first_same s s' h :
  sent_on h (log s') = sent_on h (log s) ->
  readyState_of h s' = readyState_of h s ->
  auth_first_on s h -> auth_first_on s' h.
Proof. unfold auth_first_on. intros -> ->. auto. Qed.

Lemma auth_first_lower h r s h' :
  live r = false -> auth_first_on s h' ->
  auth_first_on (set_readyState h r s) h'.
Proof.
  intros Hr. unfold auth_first_on. rewrite readyState_of_set.
  change (log (set_readyState h r s)) with (log s).
  destruct (sent_on h' (log s)) as [|m rest];
    destruct (decide (h = h')) as [->|Hne]; auto;
    destruct (readyState_of h' s) as [r0|]; simpl; auto.
  - intros _ H. injection H as ->. discriminate.
  - intros (Ha & Hc & Hn). repeat split; auto.
    intros H. injection H as ->. discriminate.
Qed.

Lemma auth_first_close g s h :
  auth_first_on s h -> auth_first_on (ws_close g s) h.
Proof.
  intros H. unfold ws_close.
  destruct (readyState_of g s) as [[| | |]|]; auto using auth_first_lower.
Qed.

Lemma session_inv_quiet s s' : quiet s s' -> session_inv s -> session_inv s'.
Proof.
  intros Hq (Hp & Hl & Ha). split; [|split].
  - destruct Hq as (_ & _ & C & _). congruence.
  - eapply one_live_quiet; eauto.
  - intros h. eapply auth_first_same; [| |apply Ha].
    + destruct Hq as (_ & _ & _ & D). apply D.
    + apply readyState_of_quiet, Hq.
Qed.

Lemma session_inv_lower h r s :
  live r = false -> session_inv s -> session_inv (set_readyState h r s).
Proof.
  intros Hr (Hp & Hl & Ha). split; [exact Hp|]. split.
  - apply one_live_set; [congruence | exact Hl].
  - intros h'. apply auth_first_lower; auto.
Qed.

Lemma session_inv_release g s :
  session_inv s -> globalWebSocket s = Some g ->
  session_inv (with_globalWebSocket None (ws_close g s)).
Proof.
  intros (Hp & Hl & Ha) Hg. split; [|split].
  - simpl. unfold ws_close.
    destruct (readyState_of g s) as [[| | |]|]; exact Hp.
  - apply one_live_release; assumption.
  - intros h. eapply auth_first_same; [| |apply auth_first_close, Ha];
      reflexivity.
Qed.

Lemma readyState_of_connect tok s h :
  socket_busy s = false -> truthy tok = true ->
  readyState_of h (connectWebSocket tok s)
  = if decide (h = length (sockets s)) then Some CONNECTING
    else readyState_of h s.
Proof.
  intros Hb Ht. destruct (connect_new tok s Hb Ht) as (A & _).
  unfold readyState_of. rewrite A.
  destruct (decide (h = length (sockets s))) as [->|Hne].
  - rewrite lookup_app_r by lia. now rewrite Nat.sub_diag.
  - destruct (decide (h < length (sockets s))%nat) as [Hlt|Hge].
    + now rewrite lookup_app_l by exact Hlt.
    + rewrite !lookup_ge_None_2; [reflexivity | lia |].
      rewrite length_app. simpl. lia.
Qed.

Lemma session_inv_connect tok s :
  session_inv s -> session_inv (connectWebSocket tok s).
Proof.
  intros Hs.
  destruct (socket_busy s) eqn:Hb; [now rewrite connect_busy|].
  destruct (truthy tok) eqn:Ht; [|now rewrite connect_no_credential].
  destruct Hs as (Hp & Hl & Ha).
  destruct (connect_new tok s Hb Ht) as (A & B & C & D).
  split; [congruence|]. split; [apply one_live_connect, Hl|].
  intros h. specialize (Ha h). unfold auth_first_on in *.
  rewrite readyState_of_connect by assumption.
  rewrite D, sent_on_app. simpl. rewrite app_nil_r.
  destruct (decide (h = length (sockets s))) as [->|Hne]; [|exact Ha].
  assert (Hnone : readyState_of (length (sockets s)) s = None).
  { unfold readyState_of. now rewrite lookup_ge_None_2. }
  rewrite Hnone in Ha.
  destruct (sent_on (length (sockets s)) (log s)); [discriminate|].
  destruct Ha as (_ & _ & Hn). now contradiction Hn.
Qed.

Lemma session_inv_tokenEffect s : session_inv s -> session_inv (tokenEffect s).
Proof.
  intros Hs. unfold tokenEffect.
  destruct (truthy (token s)); [apply session_inv_connect, Hs|].
  eapply session_inv_quiet with
    (s := match globalWebSocket s with
          | Some g => with_globalWebSocket None
                        (ws_close g (with_isExplicitlyClosing true s))
          | None => s
          end).
  { unfold setConnectionStatus, emit. quiet_by_computation. }
  destruct (globalWebSocket s) as [g|] eqn:Hg; [|exact Hs].
  apply session_inv_release; [|exact Hg].
  eapply session_inv_quiet; [|exact Hs]. quiet_by_computation.
Qed.

Lemma session_inv_logout s : session_inv s -> session_inv (onClickLogout s).
Proof.
  intros Hs. unfold onClickLogout.
  set (s1 := with_isExplicitlyClosing true s).
  assert (H1 : session_inv s1).
  { eapply session_inv_quiet; [|exact Hs]. quiet_by_computation. }
  assert (H3 : session_inv
                 (with_globalWebSocket None
                    match globalWebSocket s1 with
                    | Some g => ws_close g s1
                    | None => s1
                    end)).
  { destruct (globalWebSocket s1) as [g|] eqn:Hg.
    - apply session_inv_release; assumption.
    - eapply session_inv_quiet; [|exact H1].
      repeat split; simpl; auto. }
  match goal with |- session_inv (if ?b then _ else _) => destruct b end;
    [|exact H3].
  eapply session_inv_quiet; [apply quiet_stopRecording | exact H3].
Qed.

Lemma onchunk_log c data rnd s s' :
  onchunk c data rnd s = Some s' ->
  (forall h, sent_on h (log s') = sent_on h (log s))
  \/ exists g pcm,
       readyState_of g s = Some OPEN
       /\ log s' = log s ++ [Send g (AudioFrame pcm)].
Proof.
  destruct c; simpl;
    unfold AudioWorkletApp.port_onmessage, ScriptProcessorApp.onaudioprocess;
    destruct (globalWebSocket s) as [g|] eqn:Hg;
    try destruct (readyState_of g s) as [[| | |]|] eqn:Hr;
    try destruct (ScriptProcessorApp.below_one_percent rnd);
    intros H;
    try (inversion H; subst; left; intros h; simpl;
         rewrite ?sent_on_app; simpl; rewrite ?app_nil_r; reflexivity);
    apply ws_send_frame in H; destruct H as (_ & _ & _ & [H|[Ho H]]);
    first [ left; intros h; rewrite H; reflexivity | right; eauto ].
Qed.

Lemma sent_on_snoc_send h g m l :
  sent_on h (l ++ [Send g m])
  = sent_on h l ++ (if decide (g = h) then [m] else []).
Proof.
  rewrite sent_on_app. f_equal. unfold sent_on. simpl.
  destruct (decide (g = h)) as [->|Hne].
  - now rewrite bool_decide_eq_true_2.
  - now rewrite bool_decide_eq_false_2.
Qed.

Lemma session_inv_chunk c data rnd s :
  session_inv s -> session_inv (step c s (Chunk data rnd)).
Proof.
  intros Hs. simpl. destruct (processorLive s); [|exact Hs].
  destruct (onchunk c data rnd s) as [s'|] eqn:E; [|exact Hs]. simpl.
  destruct (onchunk_frame _ _ _ _ _ E) as (A & B & C).
  destruct Hs as (Hp & Hl & Ha).
  split; [congruence|]. split; [eapply one_live_ext; eauto|].
  assert (Hrs : forall h, readyState_of h s' = readyState_of h s).
  { intros h. unfold readyState_of. now rewrite A. }
  destruct (onchunk_log _ _ _ _ _ E) as [Hsame|(g & pcm & Hopen & Hlog)].
  - intros h. eapply auth_first_same; [apply Hsame | apply Hrs | apply Ha].
  - intros h. specialize (Ha h). unfold auth_first_on in *.
    rewrite Hrs, Hlog, sent_on_snoc_send.
    destruct (decide (g = h)) as [->|Hne]; [|now rewrite app_nil_r].
    destruct (sent_on h (log s)) as [|m rest]; [contradiction|exact Ha].
Qed.

(** An open event followed at once by its credential, for a session that
    satisfies the invariant: the auth message goes out on the socket that
    just opened, before anything else. *)
Lemma session_inv_open_settled c h t s :
  t <> EmptyString ->
  session_inv s ->
  session_inv
    (step c (step c s (WsOpen h))
       (AuthSessionSettled (SessionTokens (Some t)))).
Proof.
  intros Ht (Hp & Hl & Ha).
  assert (Htruthy : negb (String.eqb t EmptyString) = true).
  { apply negb_true_iff, String.eqb_neq, Ht. }
  cbn [step].
  destruct (readyState_of h s) as [[| | |]|] eqn:Hr;
    try (rewrite Hp; repeat split; assumption).
  assert (Hg : globalWebSocket s = Some h) by (apply (Hl h CONNECTING Hr); reflexivity).
  assert (Hopen : readyState_of h (set_readyState h OPEN s) = Some OPEN).
  { rewrite readyState_of_set, Hr. now destruct (decide (h = h)). }
  unfold onopen_begin. cbn [pendingOpens with_pendingOpens emit with_log].
  unfold onopen_resume. cbn [globalWebSocket with_pendingOpens emit with_log set_readyState with_sockets].
  rewrite Hg. cbn [truthy]. rewrite Htruthy.
  unfold ws_send.
  match goal with
  | |- context [readyState_of h ?x] =>
      replace (readyState_of h x) with (Some OPEN)
  end.
  set (s2 := setConnectionStatus connected _).
  assert (Hsock : forall h', readyState_of h' s2
                             = readyState_of h' (set_readyState h OPEN s)) by reflexivity.
  assert (Hlog : log s2 = log s ++ [FetchAuthSession; Send h (AuthMsg t);
                                    SetConnectionStatus connected]).
  { subst s2. simpl. rewrite <- !app_assoc. reflexivity. }
  split; [exact Hp|]. split.
  - eapply one_live_ext with (s := set_readyState h OPEN s);
      [reflexivity | reflexivity |].
    apply one_live_set; auto.
  - intros h'. specialize (Ha h'). unfold auth_first_on in *.
    rewrite Hsock, Hlog, readyState_of_set.
    replace (log s ++ [FetchAuthSession; Send h (AuthMsg t);
                       SetConnectionStatus connected])
      with (((log s ++ [FetchAuthSession]) ++ [Send h (AuthMsg t)])
            ++ [SetConnectionStatus connected])
      by (rewrite <- !app_assoc; reflexivity).
    rewrite sent_on_app, sent_on_snoc_send, sent_on_app. simpl.
    rewrite !app_nil_r.
    destruct (decide (h = h')) as [<-|Hne]; [|now rewrite app_nil_r].
    rewrite Hr in *. simpl.
    destruct (sent_on h (log s)) as [|m rest].
    + simpl. repeat split; discriminate.
    + destruct Ha as (_ & Hc & _). now contradiction Hc.
Qed.

Lemma session_inv_step_other c s e :
  match e with WsOpen _ | AuthSessionSettled _ => False | _ => True end ->
  session_inv s -> session_inv (step c s e).
Proof.
  intros He Hs. destruct e; try contradiction; try (apply session_inv_chunk, Hs);
    simpl.
  - apply session_inv_tokenEffect.
    eapply session_inv_quiet; [|exact Hs]. quiet_by_computation.
  - eapply session_inv_quiet; [|exact Hs]. quiet_by_computation.
  - destruct (timers s) as [|[d tok] rest]; [exact Hs|].
    apply session_inv_connect.
    eapply session_inv_quiet; [|exact Hs]. quiet_by_computation.
  - destruct (readyState_of h s) as [[| | |]|]; try exact Hs.
    eapply session_inv_quiet; [apply quiet_onmessage | exact Hs].
  - destruct (readyState_of h s) as [[| | |]|]; try exact Hs;
      (eapply session_inv_quiet; [apply quiet_onerror | exact Hs]).
  - destruct (sockets s !! h) as [ws|]; [|exact Hs].
    destruct (readyState ws); try exact Hs;
      (eapply session_inv_quiet; [apply quiet_onclose|];
       apply session_inv_lower; [reflexivity | exact Hs]).
  - destruct (isRecording s); [exact Hs|].
    destruct (negb (bool_decide (connectionStatus s = connected)));
      [exact Hs|].
    eapply session_inv_quiet; [apply quiet_startRecording | exact Hs].
  - destruct (isRecording s); [|exact Hs].
    eapply session_inv_quiet; [apply quiet_stopRecording | exact Hs].
  - eapply session_inv_quiet; [apply quiet_onClickGenerate | exact Hs].
  - apply session_inv_logout, Hs.
Qed.

Lemma run_cons c e tr s : run c (e :: tr) s = run c tr (step c s e).
Proof. reflexivity. Qed.

Lemma session_inv_run c :
  forall n tr s,
    (length tr <= n)%nat -> prompt_auth tr = true ->
    session_inv s -> session_inv (run c tr s).
Proof.
  induction n as [|n IH]; intros tr s Hlen Hp Hs.
  { destruct tr; [exact Hs | simpl in Hlen; lia]. }
  destruct tr as [|e tr]; [exact Hs|].
  simpl in Hlen.
  destruct e;
    try (simpl in Hp; rewrite run_cons; apply IH; [lia | exact Hp |];
         apply session_inv_step_other; [exact I | exact Hs]).
  - simpl in Hp.
    destruct tr as [|[| | | |[|[tk|]]| | | | | | | |] tr]; try discriminate.
    apply andb_true_iff in Hp. destruct Hp as [Ht Hp].
    simpl in Hlen.
    rewrite !run_cons.
    apply IH; [lia | exact Hp |].
    apply session_inv_open_settled; [|exact Hs].
    apply negb_true_iff, String.eqb_neq in Ht. exact Ht.
  - simpl in Hp. discriminate.
Qed.

Lemma session_inv_init : session_inv init.
Proof.
  split; [reflexivity|]. split; [apply one_live_init|].
  intros h. unfold auth_first_on. simpl. discriminate.
Qed.

Lemma auth_first_head s h i pcm :
  auth_first_on s h ->
  sent_on h (log s) !! i = Some (AudioFrame pcm) ->
  (0 < i)%nat /\ exists t, sent_on h (log s) !! 0%nat = Some (AuthMsg t).
Proof.
  unfold auth_first_on. destruct (sent_on h (log s)) as [|m rest].
  - intros _ H. discriminate.
  - intros (Hm & _) Hi. destruct m as [t|pcm']; [|discriminate].
    split; [|now exists t].
    destruct i; [discriminate | lia].
Qed.

Lemma onopen_resume_log r s :
  exists attempt,
    log (onopen_resume r s)
    = log s ++ attempt ++ [SetConnectionStatus connected]
    /\ (attempt = [] \/ attempt = [ConsoleError]
        \/ exists g t,
             r = SessionTokens (Some t)
             /\ globalWebSocket s = Some g
             /\ readyState_of g s = Some OPEN
             /\ attempt = [Send g (AuthMsg t)]).
Proof.
  unfold onopen_resume, setConnectionStatus, emit.
  destruct r as [|[t|]]; simpl.
  - exists [ConsoleError]. rewrite <- app_assoc. auto.
  - destruct (globalWebSocket s) as [g|] eqn:Hg; simpl;
      [|exists []; auto].
    destruct (negb (String.eqb t EmptyString)); simpl; [|exists []; auto].
    destruct (ws_send g (AuthMsg t) s) as [s'|] eqn:E; simpl.
    + apply ws_send_frame in E. destruct E as (_ & _ & _ & [E|[Ho E]]);
        rewrite E.
      * exists []. auto.
      * exists [Send g (AuthMsg t)]. rewrite <- app_assoc.
        split; [reflexivity|]. right. right. exists g, t. auto.
    + exists [ConsoleError]. rewrite <- app_assoc. auto.
  - destruct (globalWebSocket s); simpl; exists []; auto.
Qed.

Example first_connection_auth_first :
  sent_on 0 (log (run AudioWorklet first_connection_with_capture init))
  = [AuthMsg "T1"; AudioFrame [32767; -32767]].
Proof. vm_compute. reflexivity. Qed.

(** C4 (as amended).  Every open event starts a fresh credential fetch.
    When the fetch settles, the handler makes its one send attempt, the
    auth message on the held socket, and only then sets the status to
    "connected", whatever the attempt came to.  With a socket held and
    OPEN and a credential obtained, the auth message is sent.  And in
    every run in which each such fetch settles with a credential before
    any other event is handled, every audio frame on every socket comes
    after that socket's auth message, which is the first message on it. *)
Theorem auth_then_connected_and_first_when_prompt :
  (forall s : App, log (onopen_begin s) = log s ++ [FetchAuthSession])
  /\ (forall (r : AuthSession) (s : App),
         connectionStatus (onopen_resume r s) = connected
         /\ exists attempt,
              log (onopen_resume r s)
              = log s ++ attempt ++ [SetConnectionStatus connected]
              /\ (attempt = [] \/ attempt = [ConsoleError]
                  \/ exists g t,
                       r = SessionTokens (Some t)
                       /\ globalWebSocket s = Some g
                       /\ readyState_of g s = Some OPEN
                       /\ attempt = [Send g (AuthMsg t)]))
  /\ (forall (g : nat) (t : string) (s : App),
         globalWebSocket s = Some g ->
         readyState_of g s = Some OPEN ->
         t <> EmptyString ->
         log (onopen_resume (SessionTokens (Some t)) s)
         = log s ++ [Send g (AuthMsg t); SetConnectionStatus connected])
  /\ (forall (c : Component) (tr : list Event),
         prompt_auth tr = true ->
         forall (h i : nat) (pcm : list Z),
           sent_on h (log (run c tr init)) !! i = Some (AudioFrame pcm) ->
           (0 < i)%nat
           /\ exists t,
                sent_on h (log (run c tr init)) !! 0%nat = Some (AuthMsg t)).
Proof.
  split; [|split; [|split]].
  - reflexivity.
  - intros r s. split; [reflexivity | apply onopen_resume_log].
  - intros g t s Hg Ho Ht.
    unfold onopen_resume. rewrite Hg. cbn [truthy].
    apply String.eqb_neq in Ht. rewrite Ht. simpl.
    unfold ws_send. rewrite Ho. simpl. now rewrite <- app_assoc.
  - intros c tr Hp h i pcm Hi.
    apply (auth_first_head _ h i pcm); [|exact Hi].
    apply (session_inv_run c (length tr) tr init (le_n _) Hp session_inv_init).
Qed.

Lemma auth_then_connected_and_first_when_prompt_witness :
  prompt_auth first_connection_with_capture = true
  /\ (0 < 1)%nat
  /\ exists t,
       sent_on 0 (log (run AudioWorklet first_connection_with_capture init))
         !! 0%nat = Some (AuthMsg t).
Proof.
  split; [reflexivity|].
  apply (proj2 (proj2 (proj2 auth_then_connected_and_first_when_prompt))
           AudioWorklet first_connection_with_capture eq_refl
           0%nat 1%nat [32767; -32767]).
  vm_compute. reflexivity.
Defined.

(** C4, as stated, fails.  After a reconnection while capture runs, the
    first message on the new socket is an audio frame and the auth message
    follows it; and when the credential fetch is rejected, the status is
    set to "connected" with no auth message sent at all, and the audio
    frames of a capture started then are the only messages on the
    socket. *)
Lemma audio_before_auth_counterexample :
  sent_on 1
    (log (run AudioWorklet
            (reconnect_while_recording
             ++ [AuthSessionSettled (SessionTokens (Some "T2"%string))])
            init))
  = [AudioFrame [16383]; AuthMsg "T2"]
  /\ sent_on 0
       (log (run AudioWorklet
               [ TokenChanged (Some "T1"%string); WsOpen 0;
                 AuthSessionSettled SessionRejected;
                 ClickStart MediaGranted;
                 Chunk [JS.Num (1 # 2)] (1 # 2) ] init))
     = [AudioFrame [16383]].
Proof. split; vm_compute; reflexivity. Qed.

(** * Further properties of the code *)

(** ** The encoder beyond the unit interval *)

Lemma wrap16_range z : -32768 <= JS.wrap16 z <= 32767.
Proof.
  unfold JS.wrap16.
  pose proof (Z.mod_pos_bound z 65536 ltac:(lia)) as Hk.
  destruct (32768 <=? z mod 65536) eqn:E.
  - apply Z.leb_le in E. lia.
  - apply Z.leb_gt in E. lia.
Qed.

Lemma encode_sample_range x : -32768 <= encode_sample x <= 32767.
Proof.
  unfold encode_sample.
  destruct (JS.mul (JS.Math_min JS.one x) (JS.of_Z 32767)); simpl;
    try lia.
  apply wrap16_range.
Qed.

(** X1.  Whatever the input buffer holds (NaN, infinities, samples of any
    magnitude), the encoder returns a buffer of the same length whose
    elements all lie in the int16 range. *)
Theorem encoder_output_is_int16 :
  forall (c : Component) (buffer : list JS.number),
    length (convertFloat32ToInt16 c buffer) = length buffer
    /\ Forall (fun z => -32768 <= z <= 32767) (convertFloat32ToInt16 c buffer).
Proof.
  intros c buffer. rewrite convert_map. split.
  - apply length_map.
  - apply Forall_forall. intros z Hz.
    apply list_elem_of_fmap in Hz. destruct Hz as (x & -> & _).
    apply encode_sample_range.
Qed.

Lemma trunc_one_scaled q :
  (q == 1)%Q -> JS.trunc (q * inject_Z 32767) = 32767.
Proof.
  destruct q as [n d]. unfold Qeq, JS.trunc. simpl. intros H.
  rewrite Pos.mul_1_r. replace n with (Z.pos d) by lia.
  rewrite Z.mul_comm. apply Z.quot_mul. lia.
Qed.

(** On [-1, 1] the encoder is multiplication by 32767 and truncation. *)
Lemma encode_sample_unit q :
  (-1 <= q)%Q -> (q <= 1)%Q ->
  encode_sample (JS.Num q) = JS.trunc (q * inject_Z 32767).
Proof.
  intros Hlo Hhi. unfold encode_sample, JS.Math_min, JS.one. simpl.
  destruct (Qle_bool 1 q) eqn:E.
  - apply Qle_bool_iff in E.
    rewrite trunc_one_scaled by (apply Qle_antisym; assumption).
    reflexivity.
  - simpl. apply wrap16_small.
    pose proof (trunc_scaled_bounds q Hlo Hhi). lia.
Qed.

(** At and above 1 it is the constant 32767. *)
Lemma encode_sample_above q :
  (1 <= q)%Q -> encode_sample (JS.Num q) = 32767.
Proof.
  intros H. unfold encode_sample, JS.Math_min, JS.one. simpl.
  apply Qle_bool_iff in H. rewrite H. reflexivity.
Qed.

Lemma trunc_opp_scaled q :
  JS.trunc (- q * inject_Z 32767) = - JS.trunc (q * inject_Z 32767).
Proof.
  destruct q as [n d]. unfold JS.trunc. simpl.
  rewrite Z.mul_opp_l. apply Z.quot_opp_l. lia.
Qed.

(** X2.  On [-1, 1] the encoder is odd: the negated sample encodes to the
    negated value (the scale is 32767 on both sides and the truncation is
    toward zero). *)
Theorem encoder_is_odd_on_unit_interval :
  forall q : Q,
    (-1 <= q)%Q -> (q <= 1)%Q ->
    encode_sample (JS.Num (- q)) = - encode_sample (JS.Num q).
Proof.
  intros q Hlo Hhi.
  rewrite (encode_sample_unit q Hlo Hhi).
  rewrite encode_sample_unit.
  - apply trunc_opp_scaled.
  - apply Qopp_le_compat in Hhi. exact Hhi.
  - apply Qopp_le_compat in Hlo. exact Hlo.
Qed.

Lemma encoder_is_odd_on_unit_interval_witness :
  encode_sample (JS.Num (- (1 # 3))) = - encode_sample (JS.Num (1 # 3)).
Proof.
  apply (encoder_is_odd_on_unit_interval (1 # 3)); vm_compute; discriminate.
Defined.

(** Truncation toward zero is monotone on the rationals. *)
Lemma trunc_mono p q : (p <= q)%Q -> JS.trunc p <= JS.trunc q.
Proof.
  destruct p as [n1 d1], q as [n2 d2]. unfold Qle, JS.trunc. simpl.
  intros H.
  pose proof (Z.quot_rem' n1 (Z.pos d1)) as E1.
  pose proof (Z.quot_rem' n2 (Z.pos d2)) as E2.
  pose proof (Z.rem_bound_abs n1 (Z.pos d1) ltac:(lia)) as B1.
  pose proof (Z.rem_bound_abs n2 (Z.pos d2) ltac:(lia)) as B2.
  pose proof (Z.rem_sign_mul n1 (Z.pos d1) ltac:(lia)) as S1.
  pose proof (Z.rem_sign_mul n2 (Z.pos d2) ltac:(lia)) as S2.
  remember (Z.quot n1 (Z.pos d1)) as t1.
  remember (Z.quot n2 (Z.pos d2)) as t2.
  remember (Z.rem n1 (Z.pos d1)) as r1.
  remember (Z.rem n2 (Z.pos d2)) as r2.
  destruct (Z_le_gt_dec t1 t2) as [Hle|Hgt]; [exact Hle|exfalso].
  assert (A1 : - Z.pos d1 < r1 < Z.pos d1) by lia.
  assert (A2 : - Z.pos d2 < r2 < Z.pos d2) by lia.
  assert (K : Z.pos d1 * Z.pos d2 * (t1 - t2)
              <= r2 * Z.pos d1 - r1 * Z.pos d2).
  { rewrite E1, E2 in H. lia. }
  assert (K1 : Z.pos d1 * Z.pos d2 <= Z.pos d1 * Z.pos d2 * (t1 - t2)) by nia.
  assert (K2 : r2 * Z.pos d1 < Z.pos d2 * Z.pos d1) by nia.
  assert (K3 : - r1 * Z.pos d2 < Z.pos d1 * Z.pos d2) by nia.
  assert (Hr1 : r1 < 0) by nia.
  assert (Hr2 : 0 < r2) by nia.
  assert (Hn1 : n1 <= 0) by nia.
  assert (Hn2 : 0 <= n2) by nia.
  assert (t1 <= 0).
  { rewrite Heqt1. apply Z.quot_le_upper_bound; lia. }
  assert (0 <= t2).
  { rewrite Heqt2. apply Z.quot_pos; lia. }
  lia.
Qed.

(** X3.  From -1 upwards the encoder is monotone: a larger sample never
    encodes to a smaller value. *)
Theorem encoder_is_monotone_from_minus_one :
  forall p q : Q,
    (-1 <= p)%Q -> (p <= q)%Q ->
    encode_sample (JS.Num p) <= encode_sample (JS.Num q).
Proof.
  intros p q Hlo Hpq.
  assert (Hq : (-1 <= q)%Q) by (eapply Qle_trans; eauto).
  destruct (Qlt_le_dec q 1) as [Hq1|Hq1].
  - assert (Hp1 : (p <= 1)%Q).
    { apply Qlt_le_weak. eapply Qle_lt_trans; eauto. }
    rewrite !encode_sample_unit by auto using Qlt_le_weak.
    apply trunc_mono. apply Qmult_le_compat_r; [exact Hpq|].
    vm_compute. discriminate.
  - rewrite (encode_sample_above q Hq1).
    apply encode_sample_range.
Qed.

Lemma encoder_is_monotone_from_minus_one_witness :
  encode_sample (JS.Num (- (1 # 2))) <= encode_sample (JS.Num (3 # 4)).
Proof.
  apply (encoder_is_monotone_from_minus_one (- (1 # 2)) (3 # 4));
    vm_compute; discriminate.
Defined.

(** X4.  Below -1 nothing is clamped: every sample from -2 up to
    -32769/32767 is scaled past the int16 range and wraps around, so it is
    encoded as a strictly positive value, 65536 above its scaled value. *)
Theorem encoder_wraps_below_minus_one :
  forall q : Q,
    (-2 <= q)%Q -> (q <= - (32769 # 32767))%Q ->
    encode_sample (JS.Num q) = JS.trunc (q * inject_Z 32767) + 65536
    /\ 0 < encode_sample (JS.Num q).
Proof.
  intros q Hlo Hhi.
  assert (Hb : -65534 <= JS.trunc (q * inject_Z 32767) <= -32769).
  { split.
    - change (-65534) with (JS.trunc ((-2) * inject_Z 32767)).
      apply trunc_mono. apply Qmult_le_compat_r; [exact Hlo|].
      vm_compute. discriminate.
    - change (-32769) with (JS.trunc (- (32769 # 32767) * inject_Z 32767)).
      apply trunc_mono. apply Qmult_le_compat_r; [exact Hhi|].
      vm_compute. discriminate. }
  assert (Hmin : Qle_bool 1 q = false).
  { destruct (Qle_bool 1 q) eqn:E; [|reflexivity].
    apply Qle_bool_iff in E. exfalso.
    assert (H1 : (1 <= - (32769 # 32767))%Q) by (eapply Qle_trans; eauto).
    vm_compute in H1. apply H1. reflexivity. }
  unfold encode_sample, JS.Math_min, JS.one. simpl. rewrite Hmin. simpl.
  set (z := JS.trunc (q * inject_Z 32767)) in *.
  unfold JS.wrap16.
  replace (z mod 65536) with (z + 65536).
  - destruct (32768 <=? z + 65536) eqn:E.
    + apply Z.leb_le in E. lia.
    + split; lia.
  - symmetry. rewrite <- (Z_mod_plus_full z 1 65536).
    apply Z.mod_small. lia.
Qed.

Lemma encoder_wraps_below_minus_one_witness :
  encode_sample (JS.Num (- (3 # 2)))
  = JS.trunc (- (3 # 2) * inject_Z 32767) + 65536
  /\ 0 < encode_sample (JS.Num (- (3 # 2))).
Proof.
  apply (encoder_wraps_below_minus_one (- (3 # 2)));
    vm_compute; discriminate.
Defined.

(** ** The worklet's chunking *)

Lemma recorder_push x st st' p :
  RecorderProcessor.wf st ->
  RecorderProcessor.push x st = (st', p) ->
  RecorderProcessor.wf st'
  /\ RecorderProcessor.bufferSize st' = RecorderProcessor.bufferSize st
  /\ concat (option_list p) ++ RecorderProcessor.pending st'
     = RecorderProcessor.pending st ++ [x]
  /\ (forall ch, p = Some ch -> length ch = RecorderProcessor.bufferSize st)
  /\ (RecorderProcessor.bufferIndex st'
      + RecorderProcessor.bufferSize st * length (option_list p)
      = S (RecorderProcessor.bufferIndex st))%nat.
Proof.
  intros [Hlen Hidx]. unfold RecorderProcessor.push.
  assert (Htake : take (S (RecorderProcessor.bufferIndex st))
                    (<[RecorderProcessor.bufferIndex st := x]>
                       (RecorderProcessor.buffer st))
                  = RecorderProcessor.pending st ++ [x]).
  { unfold RecorderProcessor.pending.
    erewrite take_S_r by (apply list_lookup_insert_eq; lia).
    now rewrite take_insert_ge by lia. }
  unfold RecorderProcessor.pending in Htake.
  case_bool_decide as Hfull; intros H; injection H as <- <-;
    unfold RecorderProcessor.wf, RecorderProcessor.pending; simpl;
    rewrite ?length_insert.
  - repeat split; try lia.
    + rewrite !app_nil_r, <- Htake.
      symmetry. apply take_ge. rewrite length_insert. lia.
    + intros ch Hch. injection Hch as <-. now rewrite length_insert.
  - repeat split; try lia.
    + exact Htake.
    + intros ch Hch. discriminate.
Qed.

Lemma recorder_loop data :
  forall st posted st' posted',
    RecorderProcessor.wf st ->
    RecorderProcessor.loop data st posted = (st', posted') ->
    RecorderProcessor.wf st'
    /\ RecorderProcessor.bufferSize st' = RecorderProcessor.bufferSize st
    /\ (exists new, posted' = posted ++ new
          /\ Forall (fun ch => length ch = RecorderProcessor.bufferSize st) new
          /\ concat new ++ RecorderProcessor.pending st'
             = RecorderProcessor.pending st ++ data
          /\ (RecorderProcessor.bufferIndex st'
              + RecorderProcessor.bufferSize st * length new
              = RecorderProcessor.bufferIndex st + length data)%nat).
Proof.
  induction data as [|x data IH]; intros st posted st' posted' Hwf H.
  - simpl in H. injection H as <- <-. split; [exact Hwf|].
    split; [reflexivity|]. exists []. rewrite !app_nil_r. simpl.
    repeat split; auto; lia.
  - simpl in H. destruct (RecorderProcessor.push x st) as [st1 p] eqn:Hp.
    destruct (recorder_push x st st1 p Hwf Hp) as (Hwf1 & Hs1 & Hc1 & Hl1 & Hn1).
    destruct (IH st1 _ st' posted' Hwf1 H)
      as (Hwf' & Hs' & new & -> & Hall & Hc & Hn).
    split; [exact Hwf'|]. split; [congruence|].
    exists (option_list p ++ new). rewrite app_assoc.
    split; [reflexivity|]. split; [|split].
    + apply Forall_app. split.
      * destruct p as [ch|]; simpl; [|constructor].
        constructor; [now apply Hl1 | constructor].
      * rewrite <- Hs1. exact Hall.
    + rewrite concat_app, <- app_assoc, Hc, app_assoc, Hc1.
      now rewrite <- app_assoc.
    + rewrite length_app, Hs1 in *. simpl. nia.
Qed.

Lemma recorder_feed calls :
  forall st posted st' posted',
    RecorderProcessor.wf st ->
    RecorderProcessor.feed calls st posted = (st', posted') ->
    RecorderProcessor.wf st'
    /\ RecorderProcessor.bufferSize st' = RecorderProcessor.bufferSize st
    /\ (exists new, posted' = posted ++ new
          /\ Forall (fun ch => length ch = RecorderProcessor.bufferSize st) new
          /\ concat new ++ RecorderProcessor.pending st'
             = RecorderProcessor.pending st ++ RecorderProcessor.stream calls
          /\ (RecorderProcessor.bufferIndex st'
              + RecorderProcessor.bufferSize st * length new
              = RecorderProcessor.bufferIndex st
                + length (RecorderProcessor.stream calls))%nat).
Proof.
  induction calls as [|inputs calls IH]; intros st posted st' posted' Hwf H.
  - simpl in H. injection H as <- <-. split; [exact Hwf|].
    split; [reflexivity|]. exists []. unfold RecorderProcessor.stream.
    rewrite ?app_nil_r. simpl. rewrite ?app_nil_r. repeat split; auto; lia.
  - simpl in H. unfold RecorderProcessor.process in H.
    unfold RecorderProcessor.stream. simpl.
    fold (RecorderProcessor.stream calls).
    destruct (RecorderProcessor.channelData inputs) as [data|]; simpl.
    + destruct (RecorderProcessor.loop data st []) as [st1 p] eqn:Hl.
      destruct (recorder_loop data st [] st1 p Hwf Hl)
        as (Hwf1 & Hs1 & new1 & -> & Hall1 & Hc1 & Hn1).
      destruct (IH st1 _ st' posted' Hwf1 H)
        as (Hwf' & Hs' & new & -> & Hall & Hc & Hn).
      split; [exact Hwf'|]. split; [congruence|].
      exists (new1 ++ new). simpl. rewrite app_assoc.
      split; [reflexivity|]. split; [|split].
      * apply Forall_app. split; [exact Hall1|]. now rewrite <- Hs1.
      * rewrite concat_app, <- app_assoc, Hc, app_assoc, Hc1.
        now rewrite <- app_assoc.
      * rewrite !length_app, Hs1 in *. nia.
    + rewrite app_nil_r in H.
      destruct (IH st posted st' posted' Hwf H)
        as (Hwf' & Hs' & new & -> & Hall & Hc & Hn).
      split; [exact Hwf'|]. split; [exact Hs'|].
      exists new. auto.
Qed.

Lemma recorder_new_wf : RecorderProcessor.wf RecorderProcessor.new.
Proof. split; [apply length_replicate | simpl; lia]. Qed.

(** X5.  Over any sequence of [process] calls on a fresh processor, every
    chunk posted to the main thread has exactly 1024 samples, the number
    of chunks is the number of whole 1024-sample blocks received so far,
    and fewer than 1024 samples stay behind in the buffer; [process]
    always returns [true]. *)
Theorem recorder_posts_whole_blocks :
  forall (calls : list (list (list (list JS.number)))),
    let '(st, posted) :=
      RecorderProcessor.feed calls RecorderProcessor.new [] in
    Forall (fun ch => length ch = 1024%nat) posted
    /\ length posted
       = (length (RecorderProcessor.stream calls) / 1024)%nat
    /\ RecorderProcessor.bufferIndex st
       = (length (RecorderProcessor.stream calls) mod 1024)%nat
    /\ forall inputs, snd (RecorderProcessor.process inputs st) = true.
Proof.
  intros calls.
  destruct (RecorderProcessor.feed calls RecorderProcessor.new [])
    as [st posted] eqn:H.
  destruct (recorder_feed calls _ _ _ _ recorder_new_wf H)
    as ([_ Hidx] & Hs & new & -> & Hall & _ & Hn).
  change (RecorderProcessor.bufferSize RecorderProcessor.new)
    with 1024%nat in *.
  change (RecorderProcessor.bufferIndex RecorderProcessor.new)
    with 0%nat in Hn.
  rewrite Hs in Hidx. rewrite app_nil_l.
  split; [exact Hall|].
  assert (Hdm : length (RecorderProcessor.stream calls)
                = (1024 * length new + RecorderProcessor.bufferIndex st)%nat)
    by lia.
  split; [|split].
  - eapply Nat.div_unique; [|exact Hdm]. lia.
  - eapply Nat.mod_unique; [|exact Hdm]. lia.
  - intros inputs. unfold RecorderProcessor.process.
    destruct (RecorderProcessor.channelData inputs); [|reflexivity].
    now destruct (RecorderProcessor.loop l st []).
Qed.

(** X6.  The worklet neither drops, duplicates nor reorders samples: over
    any sequence of [process] calls on a fresh processor, the chunks
    posted, laid end to end and followed by the samples still buffered,
    are exactly the samples of the first channel in the order received. *)
Theorem recorder_conserves_the_stream :
  forall (calls : list (list (list (list JS.number)))),
    let '(st, posted) :=
      RecorderProcessor.feed calls RecorderProcessor.new [] in
    concat posted ++ RecorderProcessor.pending st
    = RecorderProcessor.stream calls.
Proof.
  intros calls.
  destruct (RecorderProcessor.feed calls RecorderProcessor.new [])
    as [st posted] eqn:H.
  destruct (recorder_feed calls _ _ _ _ recorder_new_wf H)
    as (_ & _ & new & -> & _ & Hc & _).
  rewrite app_nil_l. exact Hc.
Qed.

Lemma port_messages_open chunks :
  forall (s : App) (g : nat),
    globalWebSocket s = Some g ->
    readyState_of g s = Some OPEN ->
    exists s',
      port_messages chunks s = Some s'
      /\ log s'
         = log s ++ map (fun ch => Send g (AudioFrame (map encode_sample ch)))
                      chunks.
Proof.
  induction chunks as [|ch chunks IH]; intros s g Hg Ho.
  - exists s. split; [reflexivity|]. simpl. now rewrite app_nil_r.
  - simpl. unfold AudioWorkletApp.port_onmessage. rewrite Hg, Ho.
    unfold ws_send. rewrite Ho. rewrite worklet_convert_map.
    set (s1 := emit _ s).
    destruct (IH s1 g) as (s' & Hs' & Hl).
    + subst s1. destruct s; exact Hg.
    + subst s1. destruct s; exact Ho.
    + exists s'. split; [exact Hs'|]. rewrite Hl. subst s1.
      destruct s; simpl. now rewrite <- app_assoc.
Qed.

Lemma concat_length_uniform {A} (n : nat) (l : list (list A)) :
  Forall (fun ch => length ch = n) l -> length (concat l) = (n * length l)%nat.
Proof.
  induction 1 as [|ch l Hch _ IH]; simpl; [lia|].
  rewrite length_app, IH, Hch. lia.
Qed.

(** X7.  End to end on an open socket: the samples that go through the
    worklet and then through the port handler leave as frames of exactly
    1024 16-bit values, in order, and the frames put end to end are the
    encoding of the stream up to its last whole block of 1024 samples;
    nothing else is added to the log.  The samples after the last whole
    block wait in the worklet. *)
Theorem open_socket_sends_the_encoded_stream :
  forall (calls : list (list (list (list JS.number)))) (s : App) (g : nat),
    globalWebSocket s = Some g ->
    readyState_of g s = Some OPEN ->
    let posted := snd (RecorderProcessor.feed calls RecorderProcessor.new []) in
    let whole :=
      (1024 * (length (RecorderProcessor.stream calls) / 1024))%nat in
    exists (s' : App) (frames : list (list Z)),
      port_messages posted s = Some s'
      /\ log s' = log s ++ map (fun f => Send g (AudioFrame f)) frames
      /\ Forall (fun f => length f = 1024%nat) frames
      /\ concat frames
         = map encode_sample (take whole (RecorderProcessor.stream calls)).
Proof.
  intros calls s g Hg Ho posted whole. subst posted.
  destruct (RecorderProcessor.feed calls RecorderProcessor.new [])
    as [st posted] eqn:H.
  destruct (recorder_feed calls _ _ _ _ recorder_new_wf H)
    as ([_ Hidx] & Hs & new & -> & Hall & Hc & Hn).
  change (RecorderProcessor.bufferSize RecorderProcessor.new)
    with 1024%nat in *.
  change (RecorderProcessor.bufferIndex RecorderProcessor.new)
    with 0%nat in Hn.
  change (RecorderProcessor.pending RecorderProcessor.new)
    with (@nil JS.number) in Hc.
  rewrite Hs in Hidx. rewrite app_nil_l in *. cbn [snd].
  set (posted := new) in *.
  assert (Hdm : length (RecorderProcessor.stream calls)
                = (1024 * length posted
                   + RecorderProcessor.bufferIndex st)%nat) by lia.
  assert (Hq : length posted
               = (length (RecorderProcessor.stream calls) / 1024)%nat).
  { eapply Nat.div_unique; [|exact Hdm]. lia. }
  destruct (port_messages_open posted s g Hg Ho) as (s' & Hs' & Hl).
  exists s', (map (map encode_sample) posted).
  split; [exact Hs'|]. split; [|split].
  - rewrite Hl. now rewrite map_map.
  - apply Forall_map. eapply Forall_impl; [exact Hall|].
    intros ch Hch. simpl. now rewrite length_map.
  - assert (Hlen : length (concat posted) = whole).
    { subst whole. rewrite <- Hq. now apply concat_length_uniform. }
    rewrite <- Hlen, <- Hc, take_app_length.
    clear. induction posted as [|ch l IH]; simpl; [reflexivity|].
    now rewrite map_app, IH.
Qed.

Lemma open_socket_sends_the_encoded_stream_witness :
  let calls := [[[replicate 1500 (JS.Num (1 # 2))]]] in
  let posted := snd (RecorderProcessor.feed calls RecorderProcessor.new []) in
  let whole :=
    (1024 * (length (RecorderProcessor.stream calls) / 1024))%nat in
  exists (s' : App) (frames : list (list Z)),
    port_messages posted connected_session = Some s'
    /\ log s'
       = log connected_session ++ map (fun f => Send 0%nat (AudioFrame f)) frames
    /\ Forall (fun f => length f = 1024%nat) frames
    /\ concat frames
       = map encode_sample (take whole (RecorderProcessor.stream calls)).
Proof.
  apply (open_socket_sends_the_encoded_stream
           [[[replicate 1500 (JS.Num (1 # 2))]]] connected_session 0%nat);
    vm_compute; reflexivity.
Defined.

(** ** The session as a whole *)

(** Unfolds a turn of the event loop down to record updates. *)
Ltac unfold_handlers :=
  unfold tokenEffect, connectWebSocket, onopen_begin, onopen_resume,
    onmessage, onerror, onclose, onClickLogout, onClickGenerate,
    generateMinutes, fetchProfile, stopRecording, startRecording,
    AudioWorkletApp.startRecording, ScriptProcessorApp.startRecording,
    onchunk, AudioWorkletApp.port_onmessage,
    ScriptProcessorApp.onaudioprocess, ws_close, ws_send,
    setConnectionStatus, toast, emit, set_readyState in *.

Lemma allTranscript_step c s e :
  allTranscript (step c s e) = allTranscript s
  \/ exists t, allTranscript (step c s e)
               = (allTranscript s ++ " " ++ t)%string.
Proof.
  destruct e; simpl; unfold_handlers;
    repeat case_match; simplify_eq/=; eauto.
Qed.

Lemma string_app_assoc (a b c : string) :
  ((a ++ b) ++ c = a ++ (b ++ c))%string.
Proof.
  induction a as [|x a IH]; [reflexivity|].
  change (String x ((a ++ b) ++ c) = String x (a ++ (b ++ c)))%string.
  now rewrite IH.
Qed.

Lemma string_app_nil_r (a : string) : (a ++ EmptyString = a)%string.
Proof.
  induction a as [|x a IH]; [reflexivity|].
  change (String x (a ++ EmptyString) = String x a)%string.
  now rewrite IH.
Qed.

(** X8.  The full transcript is append-only for as long as the component
    stays mounted: over any sequence of events in which the token is not
    cleared (messages of any type, errors, closes, reconnections, a new
    token, the logout click, capture, summary generation), the transcript
    afterwards is the transcript before followed by some suffix.  (Under
    [ProtectedRoute] a cleared token unmounts the component, and the next
    mount starts from the empty transcript.) *)
Theorem transcript_is_append_only :
  forall (c : Component) (tr : list Event) (s : App),
    Forall (fun e => clears_token e = false) tr ->
    exists suffix : string,
      allTranscript (run c tr s) = (allTranscript s ++ suffix)%string.
Proof.
  intros c tr. induction tr as [|e tr IH]; intros s Hall.
  - exists EmptyString. simpl. now rewrite string_app_nil_r.
  - apply Forall_cons in Hall. destruct Hall as [_ Hall].
    rewrite run_cons. destruct (IH (step c s e) Hall) as [suf Hsuf].
    destruct (allTranscript_step c s e) as [H|[t H]]; rewrite H in Hsuf.
    + now exists suf.
    + exists (" " ++ t ++ suf)%string. rewrite Hsuf.
      now rewrite !string_app_assoc.
Qed.

Lemma transcript_is_append_only_witness :
  exists suffix : string,
    allTranscript
      (run AudioWorklet
         [WsMessage 0 (Json "transcription" "a" EmptyString); ClickStop;
          WsClose 0 1006; TimerFired;
          WsMessage 0 (Json "minutes" "m" EmptyString)]
         connected_session)
    = (allTranscript connected_session ++ suffix)%string.
Proof.
  apply (transcript_is_append_only AudioWorklet
           [WsMessage 0 (Json "transcription" "a" EmptyString); ClickStop;
            WsClose 0 1006; TimerFired;
            WsMessage 0 (Json "minutes" "m" EmptyString)]
           connected_session).
  repeat constructor.
Defined.

(** X9.  No inbound message, whatever its type and content (the reserved
    authentication-failure message included), touches the connection: the
    sockets, the held handle, the explicit-close flag, the connection
    status, the pending timers and suspended handlers, the capture and the
    credential are all as before, and nothing is transmitted. *)
Theorem inbound_message_leaves_connection_alone :
  forall (c : Component) (h : nat) (data : Inbound) (s : App),
    let s' := step c s (WsMessage h data) in
    sockets s' = sockets s
    /\ globalWebSocket s' = globalWebSocket s
    /\ isExplicitlyClosing s' = isExplicitlyClosing s
    /\ connectionStatus s' = connectionStatus s
    /\ timers s' = timers s
    /\ pendingOpens s' = pendingOpens s
    /\ isRecording s' = isRecording s
    /\ processorLive s' = processorLive s
    /\ token s' = token s
    /\ forall g, sent_on g (log s') = sent_on g (log s).
Proof.
  intros c h data s. simpl.
  destruct (readyState_of h s) as [[| | |]|]; try (repeat split; fail).
  destruct (quiet_onmessage data s) as (A & B & C & D).
  unfold onmessage, toast, emit in *.
  repeat case_match; simpl in *; repeat split; auto.
Qed.

Lemma device_requests_one a :
  device_requests [a] = if decide (a = GetUserMedia) then 1%nat else 0%nat.
Proof.
  unfold device_requests. destruct (decide (a = GetUserMedia)) as [->|Hne].
  - reflexivity.
  - now rewrite filter_cons_False.
Qed.

(** X10.  The device is requested by nothing but an accepted start: a turn
    of the event loop either leaves the number of [getUserMedia] requests
    as it was, or adds exactly one, and then the event is a click on the
    start button in a state that is connected and not recording, with, in
    the newer component, no loaded balance at or below zero. *)
Theorem device_requested_only_by_accepted_start :
  forall (c : Component) (s : App) (e : Event),
    device_requests (log (step c s e)) = device_requests (log s)
    \/ (device_requests (log (step c s e)) = S (device_requests (log s))
        /\ exists media,
             e = ClickStart media
             /\ connectionStatus s = connected
             /\ isRecording s = false
             /\ (c = AudioWorklet ->
                 forall b, balance s = Some b -> 0 < b)).
Proof.
  intros c s e.
  destruct e; simpl;
    try (left; unfold_handlers; repeat case_match; simplify_eq/=;
         rewrite ?device_requests_app, ?device_requests_one;
         repeat case_decide; simplify_eq; lia).
  destruct (isRecording s) eqn:Hrec; [now left|].
  destruct (decide (connectionStatus s = connected)) as [Hc|Hc].
  2:{ rewrite bool_decide_eq_false_2 by exact Hc. now left. }
  rewrite bool_decide_eq_true_2 by exact Hc. simpl.
  destruct c; simpl;
    unfold AudioWorkletApp.startRecording, ScriptProcessorApp.startRecording;
    rewrite bool_decide_eq_true_2 by exact Hc; simpl.
  - destruct (balance s) as [b|] eqn:Hb.
    + destruct (b <=? 0) eqn:Hle.
      * left. unfold toast, emit. simpl.
        rewrite device_requests_app, device_requests_one.
        case_decide; [discriminate | lia].
      * apply Z.leb_gt in Hle. right. split.
        -- destruct media; unfold toast, emit; simpl;
             rewrite ?device_requests_app, ?device_requests_one;
             repeat case_decide; simplify_eq; lia.
        -- exists media. repeat split; auto.
           intros _ b' Hb'. congruence.
    + right. split.
      * destruct media; unfold toast, emit; simpl;
          rewrite ?device_requests_app, ?device_requests_one;
          repeat case_decide; simplify_eq; lia.
      * exists media. repeat split; auto. intros _ b' Hb'. discriminate.
  - right. split.
    + destruct media; unfold toast, emit; simpl;
        rewrite ?device_requests_app, ?device_requests_one;
        repeat case_decide; simplify_eq; lia.
    + exists media. repeat split; auto. intros Hc'. discriminate.
Qed.

Lemma logged_out_step c s e :
  may_connect e = false ->
  isExplicitlyClosing s = true -> globalWebSocket s = None ->
  isExplicitlyClosing (step c s e) = true
  /\ globalWebSocket (step c s e) = None
  /\ timers (step c s e) = timers s.
Proof.
  intros He Hf Hg.
  destruct e; simpl in He; try discriminate; simpl; unfold_handlers;
    repeat case_match; simplify_eq/=; try congruence; auto.
Qed.

Lemma logged_out_run c tr :
  forall s,
    Forall (fun e => may_connect e = false) tr ->
    isExplicitlyClosing s = true -> globalWebSocket s = None ->
    isExplicitlyClosing (run c tr s) = true
    /\ globalWebSocket (run c tr s) = None
    /\ timers (run c tr s) = timers s.
Proof.
  induction tr as [|e tr IH]; intros s Hall Hf Hg; [auto|].
  apply Forall_cons in Hall. destruct Hall as [He Hall].
  rewrite run_cons.
  destruct (logged_out_step c s e He Hf Hg) as (Hf' & Hg' & Ht').
  destruct (IH _ Hall Hf' Hg') as (A & B & C).
  rewrite <- Ht'. auto.
Qed.

Lemma logout_click c s :
  isExplicitlyClosing (step c s ClickLogout) = true
  /\ globalWebSocket (step c s ClickLogout) = None
  /\ timers (step c s ClickLogout) = timers s
  /\ isRecording (step c s ClickLogout) = false.
Proof.
  simpl. unfold_handlers. repeat case_match; simplify_eq/=; auto.
Qed.

(** X11.  After a click on the logout button and until a connection is
    next opened (no timer fires and no non-empty token arrives in
    between), no close event schedules a reconnection: through any such
    sequence of events the pending timers stay those before the click, the
    explicit-close flag stays set and no socket is held; and the close
    event of any socket, whatever its code, then leaves the status as it
    is and adds nothing to the effects recorded (no toast, no status
    change, no warning or error on the console). *)
Theorem logout_then_close_is_silent :
  forall (c : Component) (s : App) (tr : list Event) (h : nat) (code : Z),
    Forall (fun e => may_connect e = false) tr ->
    let s1 := run c (ClickLogout :: tr) s in
    let s2 := step c s1 (WsClose h code) in
    (timers s1 = timers s
     /\ isExplicitlyClosing s1 = true
     /\ globalWebSocket s1 = None)
    /\ timers s2 = timers s
    /\ isExplicitlyClosing s2 = true
    /\ globalWebSocket s2 = None
    /\ connectionStatus s2 = connectionStatus s1
    /\ log s2 = log s1.
Proof.
  intros c s tr h code Hall s1 s2.
  assert (E1 : s1 = run c tr (step c s ClickLogout))
    by (subst s1; apply run_cons).
  destruct (logout_click c s) as (Hf & Hg & Ht & _).
  destruct (logged_out_run c tr _ Hall Hf Hg) as (Hf1 & Hg1 & Ht1).
  rewrite <- E1 in Hf1, Hg1, Ht1. rewrite Ht in Ht1. clearbody s1.
  destruct (logged_out_step c s1 (WsClose h code) eq_refl Hf1 Hg1)
    as (Hf2 & Hg2 & Ht2).
  fold s2 in Hf2, Hg2, Ht2.
  split; [auto|]. split; [congruence|].
  split; [exact Hf2|]. split; [exact Hg2|].
  subst s2. simpl. unfold onclose.
  destruct (sockets s1 !! h) as [ws|]; [|auto].
  destruct (readyState ws); auto;
    change (isExplicitlyClosing (set_readyState h CLOSED s1))
      with (isExplicitlyClosing s1); rewrite Hf1; auto.
Qed.

Lemma logout_then_close_is_silent_witness :
  let c := AudioWorklet in
  let s := connected_session in
  let tr := [TokenChanged None; WsMessage 0 (Json "transcription" "a" EmptyString)] in
  let s1 := run c (ClickLogout :: tr) s in
  let s2 := step c s1 (WsClose 0 1006) in
  (timers s1 = timers s
   /\ isExplicitlyClosing s1 = true
   /\ globalWebSocket s1 = None)
  /\ timers s2 = timers s
  /\ isExplicitlyClosing s2 = true
  /\ globalWebSocket s2 = None
  /\ connectionStatus s2 = connectionStatus s1
  /\ log s2 = log s1.
Proof.
  apply (logout_then_close_is_silent AudioWorklet connected_session
           [TokenChanged None; WsMessage 0 (Json "transcription" "a" EmptyString)] 0%nat 1006).
  repeat constructor.
Defined.



(** X13.  An unexpected close is followed by one new connection attempt.
    When the held socket closes with a code other than 1000, 1001 and
    4001, the close not being explicit and no timer pending, then the
    timer, when it fires, makes exactly one new socket, CONNECTING and
    held, with the closure's credential; the status is "connecting" and
    the capture state is untouched. *)
Theorem unexpected_close_then_timer_reconnects :
  forall (c : Component) (s : App) (g : nat) (ws : Socket) (code : Z),
    globalWebSocket s = Some g ->
    sockets s !! g = Some ws ->
    readyState ws <> CLOSED ->
    isExplicitlyClosing s = false ->
    code <> 1000 -> code <> 1001 -> code <> 4001 ->
    truthy (closureToken ws) = true ->
    timers s = [] ->
    let s' := run c [WsClose g code; TimerFired] s in
    sockets s'
    = alter (fun w => MkSocket CLOSED (closureToken w)) g (sockets s)
      ++ [MkSocket CONNECTING (closureToken ws)]
    /\ globalWebSocket s' = Some (length (sockets s))
    /\ connectionStatus s' = connecting
    /\ timers s' = []
    /\ isRecording s' = isRecording s
    /\ processorLive s' = processorLive s.
Proof.
  intros c s g ws code Hg Hws Hrs Hex H1 H2 H3 Htok Ht. simpl.
  rewrite Hws.
  assert (Hstep : match readyState ws with
                  | CLOSED => s
                  | _ => onclose (closureToken ws) code
                           (set_readyState g CLOSED s)
                  end
                  = onclose (closureToken ws) code (set_readyState g CLOSED s)).
  { destruct (readyState ws); congruence. }
  rewrite Hstep. clear Hstep.
  apply Z.eqb_neq in H1, H2, H3.
  unfold onclose. simpl. rewrite Hex, H3, H1, H2. simpl. rewrite Ht. simpl.
  unfold connectWebSocket, socket_busy, readyState_of. simpl.
  rewrite Hg, list_lookup_alter_eq, Hws. simpl. rewrite Htok. simpl.
  rewrite length_alter. repeat split.
Qed.

Lemma unexpected_close_then_timer_reconnects_witness :
  let s' := run AudioWorklet [WsClose 0 1006; TimerFired] connected_session in
  sockets s'
  = alter (fun w => MkSocket CLOSED (closureToken w)) 0%nat
      (sockets connected_session)
    ++ [MkSocket CONNECTING (closureToken (MkSocket OPEN (Some "T1"%string)))]
  /\ globalWebSocket s' = Some (length (sockets connected_session))
  /\ connectionStatus s' = connecting
  /\ timers s' = []
  /\ isRecording s' = isRecording connected_session
  /\ processorLive s' = processorLive connected_session.
Proof.
  apply (unexpected_close_then_timer_reconnects AudioWorklet
           connected_session 0%nat (MkSocket OPEN (Some "T1"%string)) 1006);
    try reflexivity; try discriminate; try lia.
Defined.

Lemma timers_ok_step c s e : timers_ok s -> timers_ok (step c s e).
Proof.
  intros [Ht Hs].
  assert (Halter : forall h r,
             Forall (fun ws => truthy (closureToken ws) = true)
               (alter (fun ws => MkSocket r (closureToken ws)) h (sockets s))).
  { intros h r. apply Forall_alter; auto. }
  assert (Hlook : forall h ws, sockets s !! h = Some ws ->
                               truthy (closureToken ws) = true).
  { intros h ws H. eapply Forall_lookup_1 in Hs; eauto. }
  unfold timers_ok.
  destruct e; simpl; unfold_handlers; unfold socket_busy, readyState_of in *;
    repeat case_match; simplify_eq/=; split; auto;
    repeat match goal with
    | |- Forall _ (_ ++ _) => apply Forall_app; split
    | |- Forall _ [_] => apply Forall_singleton; simpl
    | |- Forall _ (alter _ _ _) => apply Forall_alter; auto
    | H : negb ?b = false |- ?b = true => apply negb_false_iff in H; exact H
    | H : Forall _ (_ :: _) |- _ => apply Forall_cons in H; destruct H
    | |- _ /\ _ => split
    end; eauto;
    match goal with H : timers _ = [] |- _ => rewrite H; constructor end.
Qed.

(** X14.  In every state the session can reach, every pending
    reconnection timer carries the fixed delay of 3000 ms and the closure
    of [connectWebSocket] it will call holds a non-empty credential. *)
Theorem every_timer_is_3000ms_with_credential :
  forall (c : Component) (tr : list Event),
    Forall (fun t => fst t = 3000 /\ truthy (snd t) = true)
      (timers (run c tr init)).
Proof.
  intros c tr.
  assert (H : forall s, timers_ok s -> timers_ok (run c tr s)).
  { induction tr as [|e tr IH]; intros s Hs; [exact Hs|].
    rewrite run_cons. apply IH, timers_ok_step, Hs. }
  apply (H init). split; constructor.
Qed.

(** ** Connecting needs a credential *)





(** ** The balance display *)

(** Below 2^53 the quotient by 60 lies in a binade of at most 47. *)
Lemma binade_60_le s :
  s <> 0 -> - 9007199254740991 <= s <= 9007199254740991 ->
  -6 <= Double.binade s 60 <= 47.
Proof.
  intros Hs Hb. unfold Double.binade.
  assert (Hl : 0 <= Z.log2 (Z.abs s) < 53).
  { split; [apply Z.log2_nonneg|].
    apply Z.log2_lt_pow2; [lia|].
    change (2 ^ 53) with 9007199254740992. lia. }
  change (Z.log2 60) with 5.
  destruct (Z.log2 (Z.abs s) - 5 <? 0);
    match goal with |- context [if ?b then _ else _] => destruct b end; lia.
Qed.

(** Rounding to the nearest double cannot carry a quotient by 60 across a
    whole number while the spacing of the doubles is at most 1/32: a
    quotient that is not whole is at least 1/60 away from the next one. *)
Lemma floor_div_60 s :
  - 9007199254740991 <= s <= 9007199254740991 ->
  Double.floor (Double.div s 60) = s / 60.
Proof.
  intros Hb. unfold Double.div.
  destruct (s =? 0) eqn:E0.
  { apply Z.eqb_eq in E0. subst s. reflexivity. }
  apply Z.eqb_neq in E0.
  pose proof (binade_60_le s E0 Hb) as He.
  set (x := Double.binade s 60 - 52) in *.
  assert (Hx : (x <? 0) = true) by (apply Z.ltb_lt; lia).
  cbv zeta. rewrite Hx. unfold Double.floor. rewrite Hx.
  set (T := 2 ^ (- x)).
  assert (HT : 32 <= T).
  { change 32 with (2 ^ 5). apply Z.pow_le_mono_r; lia. }
  pose proof (Z.div_mod s 60 ltac:(lia)) as Hs.
  pose proof (Z.mod_pos_bound s 60 ltac:(lia)) as Hr.
  set (m := s / 60) in *. set (r := s mod 60) in *.
  pose proof (Z.div_mod (s * T) 60 ltac:(lia)) as Hn.
  pose proof (Z.mod_pos_bound (s * T) 60 ltac:(lia)) as Hnr.
  set (f := s * T / 60) in *. set (q := (s * T) mod 60) in *.
  assert (Hk : forall k, f <= k -> 60 * k <= s * T + 30 -> k / T = m).
  { intros k Hlo Hhi. symmetry.
    apply (Z.div_unique k T m (k - T * m)); [left | lia].
    assert (m * T <= f) by nia. nia. }
  destruct (2 * q <? 60) eqn:E1; [apply Z.ltb_lt in E1; apply Hk; lia|].
  apply Z.ltb_ge in E1.
  destruct (60 <? 2 * q) eqn:E2; [apply Hk; lia|].
  destruct (Z.even f); apply Hk; lia.
Qed.

Example formatSeconds_1800 : formatSeconds 1800 = "30分0秒"%string.
Proof. vm_compute. reflexivity. Qed.

Example formatSeconds_minus_61 : formatSeconds (-61) = "-2分-1秒"%string.
Proof. vm_compute. reflexivity. Qed.

(** Beyond 2^53 the double quotient can round up to a whole number: here
    the text reads 60 seconds more than the input. *)
Example formatSeconds_beyond_2_53 :
  formatSeconds 100000000000000016 = "1666666666666667分56秒"%string.
Proof. vm_compute. reflexivity. Qed.

(** And below -2^53 a quotient that is not whole can round to a whole
    number: here the two parts do recompose to the input. *)
Example formatSeconds_below_minus_2_53 :
  formatSeconds (-149410907169809952) = "-2490181786163499分-12秒"%string.
Proof. vm_compute. reflexivity. Qed.

(** X15.  For a whole number of seconds from 0 to 2^53 - 1 (the whole
    numbers a double holds exactly and apart), the minutes and seconds that
    [formatSeconds] prints recompose to the input, with the seconds
    between 0 and 59. *)
Theorem formatSeconds_recomposes :
  forall seconds : Z,
    0 <= seconds <= 9007199254740991 ->
    exists m s : Z,
      formatSeconds seconds = (pretty m ++ "分" ++ pretty s ++ "秒")%string
      /\ 0 <= m /\ 0 <= s < 60 /\ seconds = 60 * m + s.
Proof.
  intros seconds Hb.
  exists (seconds / 60), (Z.rem seconds 60).
  unfold formatSeconds. rewrite floor_div_60 by lia.
  split; [reflexivity|].
  rewrite Z.rem_mod_nonneg by lia.
  pose proof (Z.div_mod seconds 60 ltac:(lia)).
  pose proof (Z.mod_pos_bound seconds 60 ltac:(lia)).
  assert (0 <= seconds / 60) by (apply Z.div_pos; lia).
  lia.
Qed.

Lemma formatSeconds_recomposes_witness :
  exists m s : Z,
    formatSeconds 125 = (pretty m ++ "分" ++ pretty s ++ "秒")%string
    /\ 0 <= m /\ 0 <= s < 60 /\ 125 = 60 * m + s.
Proof. apply (formatSeconds_recomposes 125). lia. Defined.

(** X16.  For a negative whole number of seconds down to -(2^53 - 1) that
    is not a whole number of minutes the two parts do not recompose: the
    minutes are rounded down while the seconds keep the sign of the input,
    so the text reads one minute less than the input (-61 is shown as -2
    minutes -1 second). *)
Theorem formatSeconds_negative_is_off_by_a_minute :
  forall seconds : Z,
    - 9007199254740991 <= seconds < 0 ->
    Z.rem seconds 60 <> 0 ->
    exists m s : Z,
      formatSeconds seconds = (pretty m ++ "分" ++ pretty s ++ "秒")%string
      /\ -60 < s < 0 /\ 60 * m + s = seconds - 60.
Proof.
  intros seconds Hb Hr.
  exists (seconds / 60), (Z.rem seconds 60).
  unfold formatSeconds. rewrite floor_div_60 by lia.
  split; [reflexivity|].
  pose proof (Z.quot_rem' seconds 60) as Hq.
  pose proof (Z.rem_bound_pos_neg seconds 60 ltac:(lia) ltac:(lia)) as Hn.
  pose proof (Z.div_mod seconds 60 ltac:(lia)) as Hd.
  pose proof (Z.mod_pos_bound seconds 60 ltac:(lia)) as Hm.
  split; [lia|].
  assert (seconds mod 60 = Z.rem seconds 60 + 60); [|lia].
  symmetry. apply (Z.mod_unique_pos seconds 60 (Z.quot seconds 60 - 1)); lia.
Qed.

Lemma formatSeconds_negative_is_off_by_a_minute_witness :
  exists m s : Z,
    formatSeconds (-61) = (pretty m ++ "分" ++ pretty s ++ "秒")%string
    /\ -60 < s < 0 /\ 60 * m + s = -61 - 60.
Proof.
  apply (formatSeconds_negative_is_off_by_a_minute (-61)).
  - lia.
  - vm_compute. discriminate.
Defined.

(** ** Logging out *)

(** [logout] clears the credentials whether or not [signOut]
    succeeds: afterwards there is no token, refresh token or user, the
    context is not authenticated, the three keys the context owns are gone
    from [localStorage], and every other key is as it was. *)
Lemma logout_always_clears :
  forall (signOutResolves : bool) (st : AuthContext.State),
    let st' := fst (AuthContext.logout signOutResolves st) in
    AuthContext.token st' = None
    /\ AuthContext.refreshToken st' = None
    /\ AuthContext.user st' = None
    /\ AuthContext.isAuthenticated st' = false
    /\ AuthContext.localStorage st' !! "auth_access_token"%string = None
    /\ AuthContext.localStorage st' !! "auth_refresh_token"%string = None
    /\ AuthContext.localStorage st' !! "auth_user_data"%string = None
    /\ forall k : string,
         k <> "auth_access_token"%string ->
         k <> "auth_refresh_token"%string ->
         k <> "auth_user_data"%string ->
         AuthContext.localStorage st' !! k = AuthContext.localStorage st !! k.
Proof.
  intros signOutResolves st. simpl.
  repeat split; try reflexivity.
  - rewrite !lookup_delete_ne by discriminate. apply lookup_delete_eq.
  - rewrite lookup_delete_ne by discriminate. apply lookup_delete_eq.
  - apply lookup_delete_eq.
  - intros k H1 H2 H3. now rewrite !lookup_delete_ne by congruence.
Qed.

Lemma no_live_when_none_held s :
  one_live s -> globalWebSocket s = None -> live_handles s = [].
Proof.
  intros Hs Hg. destruct (live_handles s) as [|h l] eqn:E; [reflexivity|].
  exfalso. assert (Hh : h ∈ live_handles s) by (rewrite E; left).
  apply list_elem_of_filter in Hh. destruct Hh as [[H|H] _].
  - specialize (Hs h CONNECTING H eq_refl). congruence.
  - specialize (Hs h OPEN H eq_refl). congruence.
Qed.

(** X17.  Logging out, from any state the session can reach.  The click
    on the logout button by itself leaves no socket held and none
    CONNECTING or OPEN, the explicit-close flag set and the recording flag
    off; [logout] of the context, which the click calls, leaves the context
    unauthenticated whether or not [signOut] succeeds; and when the token
    effect then runs on the cleared token (it does not when the component
    is unmounted first, or when its token was empty already), all of that
    still holds and the status is "disconnected". *)
Theorem logout_flow_leaves_no_live_socket :
  forall (c : Component) (tr : list Event) (signOutResolves : bool)
         (auth : AuthContext.State),
    let auth' := fst (AuthContext.logout signOutResolves auth) in
    let s1 := step c (run c tr init) ClickLogout in
    let s2 := step c s1 (TokenChanged (AuthContext.token auth')) in
    (globalWebSocket s1 = None
     /\ live_handles s1 = []
     /\ isExplicitlyClosing s1 = true
     /\ isRecording s1 = false)
    /\ AuthContext.isAuthenticated auth' = false
    /\ (globalWebSocket s2 = None
        /\ live_handles s2 = []
        /\ isExplicitlyClosing s2 = true
        /\ isRecording s2 = false
        /\ connectionStatus s2 = disconnected).
Proof.
  intros c tr signOutResolves auth auth' s1 s2.
  assert (Ha : AuthContext.token auth' = None) by reflexivity.
  subst s2. rewrite Ha. clear Ha.
  assert (H1 : one_live s1)
    by (apply one_live_step, one_live_run, one_live_init).
  destruct (logout_click c (run c tr init)) as (F1 & G1 & _ & R1).
  fold s1 in F1, G1, R1. clearbody s1.
  assert (L1 : live_handles s1 = [])
    by (apply no_live_when_none_held; assumption).
  split; [auto|]. split; [reflexivity|].
  assert (E : step c s1 (TokenChanged None)
              = setConnectionStatus disconnected (with_token None s1)).
  { simpl. unfold tokenEffect. simpl. now rewrite G1. }
  rewrite E. repeat split; auto.
Qed.

(** ** The regular expression matcher *)

Lemma nullable_Matches r : Regex.nullable r = true <-> Regex.Matches r [].
Proof.
  split.
  - induction r; simpl; intros H; try discriminate.
    + constructor.
    + apply andb_true_iff in H. destruct H as [H1 H2].
      apply (Regex.MSeq r1 r2 [] []); auto.
    + apply orb_true_iff in H. destruct H as [H|H].
      * apply Regex.MAltL; auto.
      * apply Regex.MAltR; auto.
    + constructor.
  - intros H. remember [] as s eqn:E.
    induction H; simpl; try discriminate; auto.
    + apply app_eq_nil in E. destruct E as [-> ->].
      rewrite IHMatches1, IHMatches2; auto.
    + rewrite IHMatches; auto.
    + rewrite IHMatches; auto. apply orb_true_r.
Qed.

Lemma deriv_Matches_1 c r :
  forall s, Regex.Matches (Regex.deriv c r) s -> Regex.Matches r (c :: s).
Proof.
  induction r; simpl; intros s H.
  - inversion H.
  - inversion H.
  - destruct (p c) eqn:Hp; inversion H; subst. now constructor.
  - destruct (Regex.nullable r1) eqn:Hn.
    + inversion H; subst.
      * match goal with Hs : Regex.Matches (Regex.Seq _ _) _ |- _ =>
          inversion Hs; subst end.
        apply (Regex.MSeq r1 r2 (c :: s1) s2); auto.
      * apply (Regex.MSeq r1 r2 [] (c :: s)); auto.
        now apply nullable_Matches.
    + inversion H; subst.
      apply (Regex.MSeq r1 r2 (c :: s1) s2); auto.
  - inversion H; subst.
    + apply Regex.MAltL; auto.
    + apply Regex.MAltR; auto.
  - inversion H; subst.
    apply (Regex.MStarS r (c :: s1) s2); auto.
Qed.

Lemma deriv_Matches_2 r s0 :
  Regex.Matches r s0 ->
  forall c s, s0 = c :: s -> Regex.Matches (Regex.deriv c r) s.
Proof.
  induction 1 as [|p c0 Hp|r1 r2 s1 s2 H1 IH1 H2 IH2|r1 r2 s0 H IH
                  |r1 r2 s0 H IH|r|r s1 s2 H1 IH1 H2 IH2];
    intros c s E; simpl.
  - discriminate.
  - injection E as -> <-. rewrite Hp. constructor.
  - destruct s1 as [|c1 s1]; simpl in E.
    + subst s2. apply nullable_Matches in H1. rewrite H1.
      apply Regex.MAltR. now apply IH2.
    + injection E as -> <-.
      assert (Hs : Regex.Matches (Regex.Seq (Regex.deriv c r1) r2) (s1 ++ s2)).
      { constructor; auto. }
      destruct (Regex.nullable r1); [now apply Regex.MAltL | exact Hs].
  - apply Regex.MAltL. now apply IH.
  - apply Regex.MAltR. now apply IH.
  - discriminate.
  - destruct s1 as [|c1 s1]; simpl in E.
    + subst s2. now apply IH2.
    + injection E as -> <-. constructor; auto.
Qed.

Lemma matches_Matches r s : Regex.matches r s = true <-> Regex.Matches r s.
Proof.
  revert r. induction s as [|c s IH]; intros r; simpl.
  - apply nullable_Matches.
  - rewrite IH. split.
    + apply deriv_Matches_1.
    + intros H. now apply (deriv_Matches_2 r (c :: s)).
Qed.

Lemma Matches_star_class p s :
  Regex.Matches (Regex.Star (Regex.Class p)) s <-> Forall (fun c => p c = true) s.
Proof.
  split.
  - intros H. remember (Regex.Star (Regex.Class p)) as r eqn:E.
    induction H; try discriminate; [constructor|].
    injection E as ->. specialize (IHMatches2 eq_refl).
    inversion H; subst. simpl. constructor; auto.
  - induction 1 as [|c s Hc _ IH]; [constructor|].
    apply (Regex.MStarS _ [c] s); [now constructor | exact IH].
Qed.

Lemma Matches_plus_class p s :
  Regex.Matches (Regex.Plus (Regex.Class p)) s
  <-> s <> [] /\ Forall (fun c => p c = true) s.
Proof.
  unfold Regex.Plus. split.
  - intros H. inversion H; subst.
    match goal with Hc : Regex.Matches (Regex.Class _) _ |- _ =>
      inversion Hc; subst end.
    split; [discriminate|]. simpl. constructor; auto.
    now apply Matches_star_class.
  - intros [Hne H]. destruct s as [|c s]; [congruence|].
    inversion H; subst.
    apply (Regex.MSeq _ _ [c] s); [now constructor|].
    now apply Matches_star_class.
Qed.

Lemma Matches_star_any s : Regex.Matches (Regex.Star Regex.any) s.
Proof. apply Matches_star_class. apply Forall_forall. reflexivity. Qed.

Lemma Matches_repeat_class p n s :
  Regex.Matches (Regex.Repeat n (Regex.Class p)) s
  <-> length s = n /\ Forall (fun c => p c = true) s.
Proof.
  revert s. induction n as [|n IH]; intros s; simpl.
  - split.
    + intros H. inversion H. split; [reflexivity | constructor].
    + intros [H _]. destruct s; [constructor | discriminate].
  - split.
    + intros H. inversion H; subst.
      match goal with Hc : Regex.Matches (Regex.Class _) _ |- _ =>
        inversion Hc; subst end.
      match goal with Hr : Regex.Matches (Regex.Repeat _ _) _ |- _ =>
        apply IH in Hr; destruct Hr as [Hl Hf] end.
      simpl. split; [congruence | constructor; auto].
    + intros [Hl Hf]. destruct s as [|c s]; [discriminate|].
      inversion Hf; subst. injection Hl as Hl.
      apply (Regex.MSeq _ _ [c] s); [now constructor|].
      apply IH. auto.
Qed.

Lemma Matches_lit l s : Regex.Matches (Regex.Lit l) s <-> s = l.
Proof.
  revert s. induction l as [|c l IH]; intros s; simpl.
  - split.
    + intros H. now inversion H.
    + intros ->. constructor.
  - split.
    + intros H. inversion H; subst.
      match goal with Hc : Regex.Matches (Regex.Class _) _ |- _ =>
        inversion Hc; subst end.
      match goal with Hr : Regex.Matches (Regex.Lit _) _ |- _ =>
        apply IH in Hr; subst end.
      match goal with Hq : (_ =? _)%N = true |- _ =>
        apply N.eqb_eq in Hq; subst end.
      reflexivity.
    + intros ->. apply (Regex.MSeq _ _ [c] l).
      * constructor. apply N.eqb_refl.
      * now apply IH.
Qed.

(** An unanchored test of one character class looks for one code unit of
    the class. *)
Lemma test_class p s :
  Regex.test (Regex.Class p) s = true <-> exists c, c ∈ s /\ p c = true.
Proof.
  unfold Regex.test. rewrite matches_Matches. split.
  - intros H. inversion H; subst.
    match goal with Hs : Regex.Matches (Regex.Seq (Regex.Class _) _) _ |- _ =>
      inversion Hs; subst end.
    match goal with Hc : Regex.Matches (Regex.Class _) _ |- _ =>
      inversion Hc; subst end.
    exists c. split; [|assumption].
    apply elem_of_app. right. simpl. left.
  - intros (c & Hin & Hp).
    apply list_elem_of_split in Hin. destruct Hin as (l1 & l2 & ->).
    apply Regex.MSeq; [apply Matches_star_any|].
    apply (Regex.MSeq _ _ [c] l2); [now constructor|].
    apply Matches_star_any.
Qed.

(** ** The registration form *)

Lemma in_range_spec lo hi c :
  in_range lo hi c = true <-> (lo <= c <= hi)%N.
Proof.
  unfold in_range. rewrite andb_true_iff, !N.leb_le. reflexivity.
Qed.

Lemma one_of_spec l c : one_of l c = true <-> c ∈ l.
Proof.
  unfold one_of. rewrite existsb_exists. split.
  - intros (x & Hin & Hx). apply N.eqb_eq in Hx. subst x.
    now apply list_elem_of_In.
  - intros H. exists c. split; [now apply list_elem_of_In | apply N.eqb_refl].
Qed.

Example strong_password :
  RegisterForm.validateField
    (RegisterForm.MkFormData [] [] [] [] [] [])
    RegisterForm.k_password [65; 98; 99; 100; 101; 102; 49; 33]%N = None.
Proof. vm_compute. reflexivity. Qed.

Example tilde_is_no_symbol :
  RegisterForm.validateField
    (RegisterForm.MkFormData [] [] [] [] [] [])
    RegisterForm.k_password [65; 98; 99; 100; 101; 102; 49; 126]%N
  = Some "記号を含む必要があります"%string.
Proof. vm_compute. reflexivity. Qed.

(** X18.  The password field is accepted exactly when it is empty or has
    at least 8 code units and contains an upper-case letter, a lower-case
    letter, a digit and one of the listed symbols; for a non-empty
    password that is exactly a strength score of 5. *)
Theorem password_accepted_iff :
  forall (fd : RegisterForm.FormData) (v : list N),
    (RegisterForm.validateField fd RegisterForm.k_password v = None
     <-> v = []
         \/ ((8 <= length v)%nat
             /\ (exists c, c ∈ v /\ (65 <= c <= 90)%N)
             /\ (exists c, c ∈ v /\ (97 <= c <= 122)%N)
             /\ (exists c, c ∈ v /\ (48 <= c <= 57)%N)
             /\ (exists c, c ∈ v /\ c ∈ RegisterForm.symbols)))
    /\ (v <> [] ->
        (RegisterForm.validateField fd RegisterForm.k_password v = None
         <-> RegisterForm.score (RegisterForm.checkPasswordStrength v)
             = 5%nat)).
Proof.
  intros fd v.
  set (b1 := (8 <=? length v)%nat).
  set (b2 := Regex.test (Regex.Class (in_range 65 90)) v).
  set (b3 := Regex.test (Regex.Class (in_range 97 122)) v).
  set (b4 := Regex.test (Regex.Class (in_range 48 57)) v).
  set (b5 := Regex.test (Regex.Class (one_of RegisterForm.symbols)) v).
  assert (Hv : v <> [] ->
               (RegisterForm.validateField fd RegisterForm.k_password v = None
                <-> b1 && b2 && b3 && b4 && b5 = true)).
  { intros Hne. unfold RegisterForm.validateField.
    destruct v as [|c0 v0]; [congruence|]. cbn [RegisterForm.isEmpty].
    unfold RegisterForm.checkPasswordStrength.
    cbn [RegisterForm.hasMinLength RegisterForm.hasUpperCase
         RegisterForm.hasLowerCase RegisterForm.hasNumber
         RegisterForm.hasSymbol].
    fold b1 b2 b3 b4 b5.
    destruct b1, b2, b3, b4, b5; cbn; split; congruence. }
  assert (Hs : RegisterForm.score (RegisterForm.checkPasswordStrength v)
               = 5%nat
               <-> b1 && b2 && b3 && b4 && b5 = true).
  { unfold RegisterForm.checkPasswordStrength. cbn [RegisterForm.score].
    fold b1 b2 b3 b4 b5.
    destruct b1, b2, b3, b4, b5; vm_compute; split; congruence. }
  assert (Hall : b1 && b2 && b3 && b4 && b5 = true
                 <-> ((8 <= length v)%nat
                      /\ (exists c, c ∈ v /\ (65 <= c <= 90)%N)
                      /\ (exists c, c ∈ v /\ (97 <= c <= 122)%N)
                      /\ (exists c, c ∈ v /\ (48 <= c <= 57)%N)
                      /\ (exists c, c ∈ v /\ c ∈ RegisterForm.symbols))).
  { rewrite !andb_true_iff. subst b1 b2 b3 b4 b5.
    rewrite Nat.leb_le, !test_class.
    split.
    - intros ((((H1 & c1 & I1 & R1) & c2 & I2 & R2) & c3 & I3 & R3)
              & c4 & I4 & R4).
      apply in_range_spec in R1, R2, R3. apply one_of_spec in R4.
      split; [exact H1|]. split; [now exists c1|]. split; [now exists c2|].
      split; [now exists c3 | now exists c4].
    - intros (H1 & (c1 & I1 & R1) & (c2 & I2 & R2) & (c3 & I3 & R3)
              & (c4 & I4 & R4)).
      apply in_range_spec in R1, R2, R3. apply one_of_spec in R4.
      split; [|now exists c4]. split; [|now exists c3].
      split; [|now exists c2]. split; [exact H1 | now exists c1]. }
  split.
  - destruct v as [|c0 v0] eqn:Ev.
    + split; [now left | reflexivity].
    + rewrite <- Ev in *. rewrite (Hv ltac:(congruence)), Hall.
      split; [now right|]. intros [Habs|H]; [congruence | exact H].
  - intros Hne. now rewrite (Hv Hne), Hs.
Qed.

Lemma notSpaceNorAt_spec c :
  negb (is_space c || (c =? 64)%N) = true
  <-> is_space c = false /\ c <> 64%N.
Proof.
  rewrite negb_true_iff, orb_false_iff, N.eqb_neq. reflexivity.
Qed.

Lemma Matches_at c0 s :
  Regex.Matches (Regex.Class (N.eqb c0)) s <-> s = [c0].
Proof.
  split.
  - intros H. inversion H; subst.
    match goal with Hq : (_ =? _)%N = true |- _ =>
      apply N.eqb_eq in Hq; now subst end.
  - intros ->. constructor. apply N.eqb_refl.
Qed.

Lemma Matches_seq r1 r2 s :
  Regex.Matches (Regex.Seq r1 r2) s
  <-> exists s1 s2, s = s1 ++ s2 /\ Regex.Matches r1 s1 /\ Regex.Matches r2 s2.
Proof.
  split.
  - intros H. inversion H; subst. eauto.
  - intros (s1 & s2 & -> & H1 & H2). now constructor.
Qed.

Lemma Matches_alt r1 r2 s :
  Regex.Matches (Regex.Alt r1 r2) s
  <-> Regex.Matches r1 s \/ Regex.Matches r2 s.
Proof.
  split.
  - intros H. inversion H; subst; auto.
  - intros [H|H]; [now apply Regex.MAltL | now apply Regex.MAltR].
Qed.

Example email_accepted :
  RegisterForm.validateField (RegisterForm.MkFormData [] [] [] [] [] [])
    RegisterForm.k_email [97; 64; 98; 46; 99]%N = None.
Proof. vm_compute. reflexivity. Qed.

Example email_with_two_ats_rejected :
  RegisterForm.validateField (RegisterForm.MkFormData [] [] [] [] [] [])
    RegisterForm.k_email [97; 64; 64; 98; 46; 99]%N
  = Some "有効なメールアドレスを入力してください"%string.
Proof. vm_compute. reflexivity. Qed.

(** X19.  The email field is accepted exactly when it is empty or has the
    shape local@domain.tail, the three parts being non-empty and free of
    white space and of the at sign (so the address has exactly one at
    sign, and a dot after it that is neither first nor last in the part
    after the at sign). *)
Theorem email_accepted_iff :
  forall (fd : RegisterForm.FormData) (v : list N),
    RegisterForm.validateField fd RegisterForm.k_email v = None
    <-> v = []
        \/ exists a b c : list N,
             v = a ++ [64%N] ++ b ++ [46%N] ++ c
             /\ a <> [] /\ b <> [] /\ c <> []
             /\ Forall (fun x => is_space x = false /\ x <> 64%N)
                  (a ++ b ++ c).
Proof.
  intros fd v. unfold RegisterForm.validateField.
  destruct v as [|c0 v0]; [split; auto|].
  cbn [RegisterForm.isEmpty]. set (v := c0 :: v0).
  assert (Hm : Regex.test_whole RegisterForm.emailRegex v = true
               <-> exists a b c : list N,
                     v = a ++ [64%N] ++ b ++ [46%N] ++ c
                     /\ a <> [] /\ b <> [] /\ c <> []
                     /\ Forall (fun x => is_space x = false /\ x <> 64%N)
                          (a ++ b ++ c)).
  { unfold Regex.test_whole. rewrite matches_Matches.
    unfold RegisterForm.emailRegex, RegisterForm.notSpaceNorAt.
    split.
    - intros H.
      apply Matches_seq in H. destruct H as (a & r1 & -> & Ha & H).
      apply Matches_seq in H. destruct H as (x & r2 & -> & Hx & H).
      apply Matches_seq in H. destruct H as (b & r3 & -> & Hb & H).
      apply Matches_seq in H. destruct H as (y & c & -> & Hy & Hc).
      apply Matches_at in Hx, Hy. subst x y.
      apply Matches_plus_class in Ha, Hb, Hc.
      destruct Ha as [Na Fa], Hb as [Nb Fb], Hc as [Nc Fc].
      exists a, b, c. repeat split; auto.
      rewrite !Forall_app. repeat split;
        (eapply Forall_impl; [eassumption|]);
        intros z Hz; now apply notSpaceNorAt_spec.
    - intros (a & b & c & -> & Na & Nb & Nc & F).
      rewrite !Forall_app in F. destruct F as (Fa & Fb & Fc).
      assert (Hp : forall l, l <> [] ->
                 Forall (fun x => is_space x = false /\ x <> 64%N) l ->
                 Regex.Matches
                   (Regex.Plus
                      (Regex.Class
                         (fun c => negb (is_space c || (c =? 64)%N)))) l).
      { intros l Hl Fl. apply Matches_plus_class. split; [exact Hl|].
        eapply Forall_impl; [exact Fl|].
        intros z Hz. now apply notSpaceNorAt_spec. }
      apply Matches_seq. exists a, ([64%N] ++ b ++ [46%N] ++ c).
      split; [reflexivity|]. split; [now apply Hp|].
      apply Matches_seq. exists [64%N], (b ++ [46%N] ++ c).
      split; [reflexivity|]. split; [now apply Matches_at|].
      apply Matches_seq. exists b, ([46%N] ++ c).
      split; [reflexivity|]. split; [now apply Hp|].
      apply Matches_seq. exists [46%N], c.
      split; [reflexivity|]. split; [now apply Matches_at | now apply Hp]. }
  destruct (Regex.test_whole RegisterForm.emailRegex v) eqn:E.
  - split; [intros _; right; now apply Hm | reflexivity].
  - split; [discriminate|].
    intros [Habs|H]; [discriminate|].
    apply Hm in H. discriminate.
Qed.

Lemma Matches_opt_class p s :
  Regex.Matches (Regex.Opt (Regex.Class p)) s
  <-> (length s <= 1)%nat /\ Forall (fun c => p c = true) s.
Proof.
  unfold Regex.Opt. split.
  - intros H. inversion H; subst.
    + match goal with He : Regex.Matches Regex.Eps _ |- _ =>
        inversion He; subst end.
      split; [simpl; lia | constructor].
    + match goal with Hc : Regex.Matches (Regex.Class _) _ |- _ =>
        inversion Hc; subst end.
      split; [simpl; lia | repeat constructor; auto].
  - intros [Hl Hf]. destruct s as [|c [|c' s]]; simpl in Hl; try lia.
    + apply Regex.MAltL. constructor.
    + apply Regex.MAltR. inversion Hf; subst. now constructor.
Qed.

Lemma Matches_phone s :
  Regex.Matches RegisterForm.phoneRegex s
  <-> exists ds : list N,
        (s = [43; 56; 49]%N ++ ds \/ s = 48%N :: ds)
        /\ Forall (fun c => (48 <= c <= 57)%N) ds
        /\ (10 <= length ds <= 11)%nat.
Proof.
  unfold RegisterForm.phoneRegex, RegisterForm.digit. split.
  - intros H.
    apply Matches_seq in H. destruct H as (pre & r & -> & Hpre & H).
    apply Matches_seq in H. destruct H as (d10 & o & -> & Hd & Ho).
    apply Matches_repeat_class in Hd. destruct Hd as [Ld Fd].
    apply Matches_opt_class in Ho. destruct Ho as [Lo Fo].
    exists (d10 ++ o). split; [|split].
    + apply Matches_alt in Hpre.
      destruct Hpre as [Hl|Hl]; apply Matches_lit in Hl; subst; auto.
    + apply Forall_app. split;
        (eapply Forall_impl; [eassumption|]);
        intros z Hz; now apply in_range_spec.
    + rewrite length_app. lia.
  - intros (ds & Hs & Fd & Ld).
    assert (Hd : Regex.Matches
                   (Regex.Seq (Regex.Repeat 10 (Regex.Class (in_range 48 57)))
                      (Regex.Opt (Regex.Class (in_range 48 57)))) ds).
    { rewrite <- (take_drop 10 ds). apply Regex.MSeq.
      - apply Matches_repeat_class. split.
        + rewrite length_take. lia.
        + apply Forall_take. eapply Forall_impl; [exact Fd|].
          intros z Hz. now apply in_range_spec.
      - apply Matches_opt_class. split.
        + rewrite length_drop. lia.
        + apply Forall_drop. eapply Forall_impl; [exact Fd|].
          intros z Hz. now apply in_range_spec. }
    destruct Hs as [-> | ->].
    + apply Regex.MSeq; [|exact Hd].
      apply Regex.MAltL. now apply Matches_lit.
    + apply (Regex.MSeq _ _ [48%N] ds); [|exact Hd].
      apply Regex.MAltR. now apply Matches_lit.
Qed.

(** X20.  The phone field is accepted exactly when it is empty or, once
    its hyphens and white space are taken out, it is +81 or 0 followed by
    10 or 11 digits. *)
Theorem phone_accepted_iff :
  forall (fd : RegisterForm.FormData) (v : list N),
    RegisterForm.validateField fd RegisterForm.k_phoneNumber v = None
    <-> v = []
        \/ exists ds : list N,
             (RegisterForm.stripSeparators v = [43; 56; 49]%N ++ ds
              \/ RegisterForm.stripSeparators v = 48%N :: ds)
             /\ Forall (fun c => (48 <= c <= 57)%N) ds
             /\ (10 <= length ds <= 11)%nat.
Proof.
  intros fd v. unfold RegisterForm.validateField.
  destruct v as [|c0 v0]; [split; auto|].
  cbn [RegisterForm.isEmpty]. set (v := c0 :: v0).
  unfold Regex.test_whole.
  destruct (Regex.matches RegisterForm.phoneRegex
              (RegisterForm.stripSeparators v)) eqn:E.
  - apply matches_Matches, Matches_phone in E.
    split; [intros _; now right | reflexivity].
  - split; [discriminate|].
    intros [Habs|H]; [discriminate|].
    apply Matches_phone, matches_Matches in H. congruence.
Qed.

Lemma blank_false_not_empty v :
  RegisterForm.blank v = false -> RegisterForm.isEmpty v = false.
Proof. destruct v; [discriminate | reflexivity]. Qed.

Lemma confirm_accepted_iff fd v :
  RegisterForm.isEmpty v = false ->
  (RegisterForm.validateField fd RegisterForm.k_confirmPassword v = None
   <-> v = RegisterForm.password fd).
Proof.
  intros Hne. unfold RegisterForm.validateField. rewrite Hne.
  case_bool_decide; split; congruence.
Qed.

Lemma setError_some_not_noErrors name e r :
  RegisterForm.setError name (Some e) r <> RegisterForm.noErrors.
Proof. destruct name; discriminate. Qed.

Lemma requiredAndValid_agree fd name v m acc :
  errors_agree acc -> errors_agree (RegisterForm.requiredAndValid fd name v m acc).
Proof.
  unfold errors_agree, RegisterForm.requiredAndValid. intros H.
  destruct (RegisterForm.blank v); [|destruct (RegisterForm.validateField _ _ _)];
    try exact H;
    (split; [discriminate | intros E; now apply setError_some_not_noErrors in E]).
Qed.

Lemma requiredOnly_agree name v m acc :
  errors_agree acc -> errors_agree (RegisterForm.requiredOnly name v m acc).
Proof.
  unfold errors_agree, RegisterForm.requiredOnly. intros H.
  destruct (RegisterForm.blank v); try exact H.
  split; [discriminate | intros E; now apply setError_some_not_noErrors in E].
Qed.

Lemma requiredAndValid_true fd name v m acc :
  snd (RegisterForm.requiredAndValid fd name v m acc) = true
  <-> snd acc = true /\ RegisterForm.blank v = false
      /\ RegisterForm.validateField fd name v = None.
Proof.
  unfold RegisterForm.requiredAndValid.
  destruct (RegisterForm.blank v); [|destruct (RegisterForm.validateField _ _ _)];
    cbn; intuition congruence.
Qed.

Lemma requiredOnly_true name v m acc :
  snd (RegisterForm.requiredOnly name v m acc) = true
  <-> snd acc = true /\ RegisterForm.blank v = false.
Proof.
  unfold RegisterForm.requiredOnly.
  destruct (RegisterForm.blank v); cbn; intuition congruence.
Qed.

Example complete_form_is_accepted :
  RegisterForm.validateForm
    (RegisterForm.MkFormData
       [97; 64; 98; 46; 99]%N
       [65; 98; 99; 100; 101; 102; 49; 33]%N
       [65; 98; 99; 100; 101; 102; 49; 33]%N
       [84]%N [89]%N
       [48; 57; 48; 45; 49; 50; 51; 52; 45; 53; 54; 55; 56]%N)
  = (RegisterForm.noErrors, true).
Proof. vm_compute. reflexivity. Qed.

(** X21.  [validateForm] returns [true] exactly when it records no error
    at all, and that is exactly when all six fields are non-blank, the
    email, password and phone fields pass their field validation, and the
    confirmation equals the password. *)
Theorem validateForm_accepts_iff :
  forall fd : RegisterForm.FormData,
    (snd (RegisterForm.validateForm fd) = true
     <-> fst (RegisterForm.validateForm fd) = RegisterForm.noErrors)
    /\ (snd (RegisterForm.validateForm fd) = true
        <-> RegisterForm.blank (RegisterForm.email fd) = false
            /\ RegisterForm.validateField fd RegisterForm.k_email
                 (RegisterForm.email fd) = None
            /\ RegisterForm.blank (RegisterForm.password fd) = false
            /\ RegisterForm.validateField fd RegisterForm.k_password
                 (RegisterForm.password fd) = None
            /\ RegisterForm.blank (RegisterForm.confirmPassword fd) = false
            /\ RegisterForm.confirmPassword fd = RegisterForm.password fd
            /\ RegisterForm.blank (RegisterForm.givenName fd) = false
            /\ RegisterForm.blank (RegisterForm.familyName fd) = false
            /\ RegisterForm.blank (RegisterForm.phoneNumber fd) = false
            /\ RegisterForm.validateField fd RegisterForm.k_phoneNumber
                 (RegisterForm.phoneNumber fd) = None).
Proof.
  intros fd. split.
  - unfold RegisterForm.validateForm.
    repeat first [apply requiredAndValid_agree | apply requiredOnly_agree].
    split; reflexivity.
  - assert (Hc : RegisterForm.blank (RegisterForm.confirmPassword fd) = false ->
                 (RegisterForm.validateField fd RegisterForm.k_confirmPassword
                    (RegisterForm.confirmPassword fd) = None
                  <-> RegisterForm.confirmPassword fd
                      = RegisterForm.password fd)).
    { intros H. apply confirm_accepted_iff, blank_false_not_empty, H. }
    unfold RegisterForm.validateForm.
    rewrite !requiredAndValid_true, !requiredOnly_true,
      !requiredAndValid_true.
    cbn [snd]. tauto.
Qed.

(** X22.  When the password field changes while a confirmation is typed
    in, the confirmation is re-validated against the password as it was
    before the change: its error is cleared exactly when it equals the old
    password, whatever the new one is.  So typing into the password field
    the very text of the confirmation leaves the mismatch message showing
    on two fields that agree. *)
Theorem password_change_revalidates_against_old_password :
  forall (v : list N) (st : RegisterForm.State),
    RegisterForm.confirmPassword (RegisterForm.formData st) <> [] ->
    let st' := RegisterForm.handleInputChange RegisterForm.k_password v st in
    RegisterForm.password (RegisterForm.formData st') = v
    /\ RegisterForm.confirmPassword (RegisterForm.formData st')
       = RegisterForm.confirmPassword (RegisterForm.formData st)
    /\ (RegisterForm.confirmPassword_error (RegisterForm.formErrors st') = None
        <-> RegisterForm.confirmPassword (RegisterForm.formData st)
            = RegisterForm.password (RegisterForm.formData st))
    /\ (v = RegisterForm.confirmPassword (RegisterForm.formData st) ->
        RegisterForm.password (RegisterForm.formData st) <> v ->
        RegisterForm.confirmPassword_error (RegisterForm.formErrors st')
        = Some "パスワードが一致しません"%string).
Proof.
  intros v st Hne. simpl.
  destruct (RegisterForm.confirmPassword (RegisterForm.formData st))
    as [|c0 c] eqn:Ecp; [congruence|].
  cbn [RegisterForm.isEmpty negb RegisterForm.setError
       RegisterForm.confirmPassword_error].
  split; [reflexivity|]. split; [reflexivity|]. split.
  - case_bool_decide; split; congruence.
  - intros -> Hneq. rewrite bool_decide_eq_false_2 by congruence. reflexivity.
Qed.

Lemma password_change_revalidates_against_old_password_witness :
  let st :=
    RegisterForm.MkState
      (RegisterForm.MkFormData [] [65]%N [66]%N [] [] [])
      None false RegisterForm.noErrors RegisterForm.register in
  let st' :=
    RegisterForm.handleInputChange RegisterForm.k_password [66]%N st in
  RegisterForm.password (RegisterForm.formData st') = [66]%N
  /\ RegisterForm.confirmPassword (RegisterForm.formData st')
     = RegisterForm.confirmPassword (RegisterForm.formData st)
  /\ (RegisterForm.confirmPassword_error (RegisterForm.formErrors st') = None
      <-> RegisterForm.confirmPassword (RegisterForm.formData st)
          = RegisterForm.password (RegisterForm.formData st))
  /\ ([66]%N = RegisterForm.confirmPassword (RegisterForm.formData st) ->
      RegisterForm.password (RegisterForm.formData st) <> [66]%N ->
      RegisterForm.confirmPassword_error (RegisterForm.formErrors st')
      = Some "パスワードが一致しません"%string).
Proof.
  apply (password_change_revalidates_against_old_password [66]%N
           (RegisterForm.MkState
              (RegisterForm.MkFormData [] [65]%N [66]%N [] [] [])
              None false RegisterForm.noErrors RegisterForm.register)).
  discriminate.
Defined.

Lemma stripSeparators_id v :
  RegisterForm.stripSeparators v = v <-> Forall (fun c => separator c = false) v.
Proof.
  unfold RegisterForm.stripSeparators. fold separator.
  change (fun c => negb ((c =? 45)%N || is_space c))
    with (fun c => negb (separator c)).
  induction v as [|a v IH]; simpl.
  - split; [constructor | reflexivity].
  - destruct (separator a) eqn:Ea; simpl.
    + split.
      * intros H.
        pose proof (List.filter_length_le (fun c => negb (separator c)) v) as L.
        rewrite H in L. simpl in L. lia.
      * intros H. inversion H; congruence.
    + split.
      * intros H. injection H as H. constructor; [exact Ea | now apply IH].
      * intros H. inversion H; subst. f_equal. now apply IH.
Qed.

Lemma digit_no_separator c : (48 <= c <= 57)%N -> separator c = false.
Proof.
  intros H.
  assert (D : (c = 48 \/ c = 49 \/ c = 50 \/ c = 51 \/ c = 52 \/ c = 53
               \/ c = 54 \/ c = 55 \/ c = 56 \/ c = 57)%N) by lia.
  repeat destruct D as [->|D]; try subst c; reflexivity.
Qed.

Lemma international_no_separator s :
  international s -> Forall (fun c => separator c = false) s.
Proof.
  intros (ds & -> & Fd & _).
  repeat (apply Forall_cons; split; [reflexivity|]).
  eapply Forall_impl; [exact Fd|]. intros c. apply digit_no_separator.
Qed.

Lemma formatPhone_cases v :
  RegisterForm.formatPhone v = v
  \/ exists rest, v = 48%N :: rest
                  /\ RegisterForm.formatPhone v = [43; 56; 49]%N ++ rest.
Proof.
  unfold RegisterForm.formatPhone.
  repeat case_match; subst; eauto.
Qed.

(** X24.  For a phone number that the form accepts, the number handed to
    the sign-up call is in international form (+81 followed by 10 or 11
    digits) exactly when it was typed without any hyphen or white space:
    validation ignores those separators, the conversion keeps them. *)
Theorem submitted_phone_international_iff_no_separator :
  forall (fd : RegisterForm.FormData) (v : list N),
    v <> [] ->
    RegisterForm.validateField fd RegisterForm.k_phoneNumber v = None ->
    (international (RegisterForm.formatPhone v)
     <-> RegisterForm.stripSeparators v = v).
Proof.
  intros fd v Hne Hok.
  assert (Hm : Regex.Matches RegisterForm.phoneRegex
                 (RegisterForm.stripSeparators v)).
  { unfold RegisterForm.validateField in Hok.
    destruct v as [|c0 v0]; [congruence|]. cbn [RegisterForm.isEmpty] in Hok.
    unfold Regex.test_whole in Hok. apply matches_Matches.
    destruct (Regex.matches _ _); [reflexivity | discriminate]. }
  apply Matches_phone in Hm as (ds & Hs & Fd & Hl).
  split.
  - intros Hi. apply stripSeparators_id.
    destruct (formatPhone_cases v) as [E | (rest & -> & E)].
    + rewrite E in Hi. now apply international_no_separator.
    + rewrite E in Hi. apply international_no_separator in Hi.
      apply Forall_cons; split; [reflexivity|].
      simpl in Hi. inversion Hi as [|? ? _ H1]; subst.
      inversion H1 as [|? ? _ H2]; subst.
      inversion H2 as [|? ? _ H3]; subst. exact H3.
  - intros E. rewrite E in Hs. exists ds.
    destruct Hs as [-> | ->]; (split; [reflexivity | split; assumption]).
Qed.

Lemma submitted_phone_international_iff_no_separator_witness :
  international
    (RegisterForm.formatPhone
       [48; 57; 48; 49; 50; 51; 52; 53; 54; 55; 56]%N)
  <-> RegisterForm.stripSeparators
        [48; 57; 48; 49; 50; 51; 52; 53; 54; 55; 56]%N
      = [48; 57; 48; 49; 50; 51; 52; 53; 54; 55; 56]%N.
Proof.
  apply (submitted_phone_international_iff_no_separator
           (RegisterForm.MkFormData [] [] [] [] [] [])
           [48; 57; 48; 49; 50; 51; 52; 53; 54; 55; 56]%N).
  - discriminate.
  - vm_compute. reflexivity.
Defined.

Example hyphenated_phone_is_accepted_and_sent_with_hyphens :
  let v := [48; 57; 48; 45; 49; 50; 51; 52; 45; 53; 54; 55; 56]%N in
  RegisterForm.validateField (RegisterForm.MkFormData [] [] [] [] [] [])
    RegisterForm.k_phoneNumber v = None
  /\ RegisterForm.formatPhone v
     = [43; 56; 49; 57; 48; 45; 49; 50; 51; 52; 45; 53; 54; 55; 56]%N.
Proof. vm_compute. split; reflexivity. Qed.

(** X23.  Submitting the form: with a form that [validateForm] rejects
    nothing leaves the component, the general error is shown and the step
    and loading flag stay; with a form it accepts [signUp] is called once,
    first, with the typed data and the converted phone number, loading
    ends, the confirmation step is entered exactly when the sign-up
    resolved incomplete, the success callback or the navigation to the
    root follows exactly when it resolved complete, and an error is shown
    exactly when it threw.  In every case the typed data is kept and the
    field errors are those of [validateForm]. *)
Theorem submit_outcomes :
  forall (onSuccess : bool) (o : RegisterForm.SignUpOutcome)
         (st : RegisterForm.State),
    let d := RegisterForm.formData st in
    let st' := fst (RegisterForm.handleSubmit onSuccess o st) in
    let effects := snd (RegisterForm.handleSubmit onSuccess o st) in
    RegisterForm.formData st' = d
    /\ RegisterForm.formErrors st' = fst (RegisterForm.validateForm d)
    /\ (snd (RegisterForm.validateForm d) = false ->
        effects = []
        /\ RegisterForm.error st'
           = Some "入力内容に問題があります。すべての項目を正しく入力してください。"%string
        /\ RegisterForm.step st' = RegisterForm.step st
        /\ RegisterForm.isLoading st' = RegisterForm.isLoading st)
    /\ (snd (RegisterForm.validateForm d) = true ->
        exists after,
          effects
          = RegisterForm.CallSignUp (RegisterForm.email d)
              (RegisterForm.password d) (RegisterForm.givenName d)
              (RegisterForm.familyName d)
              (RegisterForm.formatPhone (RegisterForm.phoneNumber d))
            :: after
          /\ RegisterForm.isLoading st' = false
          /\ match o with
             | RegisterForm.SignUpResolves false =>
                 after = [] /\ RegisterForm.step st' = RegisterForm.confirm
                 /\ RegisterForm.error st' = None
             | RegisterForm.SignUpResolves true =>
                 after = [if onSuccess then RegisterForm.CallOnSuccess
                          else RegisterForm.RouterPush "/"]
                 /\ RegisterForm.step st' = RegisterForm.step st
                 /\ RegisterForm.error st' = None
             | RegisterForm.SignUpThrows name =>
                 after = [] /\ RegisterForm.step st' = RegisterForm.step st
                 /\ RegisterForm.error st'
                    = RegisterForm.message (RegisterForm.cognitoSignUp o)
                 /\ RegisterForm.error st' <> None
             end).
Proof.
  intros onSuccess o st d st' effects. subst st' effects.
  unfold RegisterForm.handleSubmit. fold d.
  destruct (RegisterForm.validateForm d) as [errors isValid].
  destruct isValid; cbn [negb fst snd].
  - split; [|split; [|split; [discriminate|]]].
    + destruct o as [[]|name]; reflexivity.
    + destruct o as [[]|name]; reflexivity.
    + intros _. destruct o as [[]|name]; cbn.
      * eexists; repeat split.
      * eexists; repeat split.
      * eexists; split; [reflexivity|]. split; [reflexivity|].
        split; [reflexivity|]. split; [reflexivity|].
        split; [|discriminate].
        destruct (String.eqb name "UsernameExistsException");
          [vm_compute; reflexivity|].
        destruct (String.eqb name "InvalidPasswordException");
          [vm_compute; reflexivity|].
        destruct (String.eqb name "InvalidParameterException");
          vm_compute; reflexivity.
  - split; [reflexivity|]. split; [reflexivity|].
    split; [|discriminate]. intros _. repeat split.
Qed.
